(** * KINSOL band-block-diagonal preconditioner (kinbbdpre.c) and the
      SUNNonlinearSolver return codes: a shallow embedding and its properties.

    The embedding follows src/unnamed/part_002 (kinbbdpre.c, version of
    26 July 2002: KBBDAlloc, KBBDFree, KBBDPrecon, KBBDPSol, KBBDDQJac) and
    the return code table of src/unnamed/part_000
    (sundials_nonlinearsolver.h), and, for the Fortran interface to the
    matrix constructors, FSUNMATRIX_INITS (src/unnamed/part_002) and
    FSUNMATRIX_INITD (src/src/sunmat_dense/fsunmatrix_dense.c).

    - [integertype] values are integers in [Z]; signed overflow is undefined
      in C, so no wrap-around is written out.
    - [realtype] is a parameter of the development: a carrier with the
      arithmetic the code uses ([RealArith]).  Two instances are given,
      IEEE binary64 (the C [double]) and exact rationals.
    - C arrays are lists, read and written at integer indices.
    - Pointers that may be NULL are options. *)

From Stdlib Require Import ZArith QArith Qcanon Floats String Lia.
From stdpp Require Import base option list list_numbers.

#[local] Open Scope Z_scope.

(** ** Real arithmetic *)

(** The operations on [realtype] used by kinbbdpre.c and by the band
    routines: the constants ZERO and ONE, the four operations, negation,
    the tests [a < b] and [a == b], and the square root RSqrt. *)
Class RealArith (R : Type) : Type := {
  ZERO : R;
  ONE : R;
  radd : R → R → R;
  rsub : R → R → R;
  rmul : R → R → R;
  rdiv : R → R → R;
  ropp : R → R;
  rltb : R → R → bool;
  reqb : R → R → bool;
  RSqrt : R → R
}.

Section Embedding.

Context {R : Type} {RA : RealArith R}.

(** Modelled from the spec: the macros ABS and MAX of sundialsmath.h, which
    is not among the sources ("max(|y_j|, 1/scale_j)"):
    ABS(A) is ((A < 0) ? -(A) : (A)), MAX(A,B) is ((A) > (B) ? (A) : (B)). *)
Definition ABS (a : R) : R := if rltb a ZERO then ropp a else a.

Definition MAX (a b : R) : R := if rltb b a then a else b.

(** ** Arrays *)

(** The local data of an N_Vector (N_VGetData gives this array). *)
Definition N_Vector : Type := list R.

(** [a[i]] for an integer index.  An access outside the array is undefined
    in C; the model reads [d] there. *)
Definition rd {A : Type} (d : A) (a : list A) (i : Z) : A :=
  if decide (0 ≤ i) then default d (a !! Z.to_nat i) else d.

(** [a[i] = x].  A store outside the array is undefined in C; the model
    leaves the array as it is. *)
Definition wr {A : Type} (a : list A) (i : Z) (x : A) : list A :=
  if decide (0 ≤ i) then <[Z.to_nat i := x]> a else a.

(** Modelled from the spec: N_VScale of the NVECTOR module, which is not
    among the sources: z = c x, componentwise. *)
Definition N_VScale (c : R) (x : N_Vector) : N_Vector := map (rmul c) x.

(** ** Band matrices *)

(** Modelled from the spec: the type BandMat of band.h, which is not among
    the sources.  An n by n band matrix with upper and lower half-bandwidths
    [bmu] and [bml] is stored by columns; column j is an array of
    [smu + bml + 1] reals, [smu] being the storage upper bandwidth (room for
    the fill-in of the factorization). *)
Record BandMat : Type := mkBandMat {
  size : Z;
  bmu : Z;
  bml : Z;
  smu : Z;
  data : list (list R)
}.

(** The storage of column j, [(A->data)[j]]. *)
Definition band_col (A : BandMat) (j : Z) : list R := rd [] (data A) j.

Definition set_band_col (A : BandMat) (j : Z) (c : list R) : BandMat :=
  mkBandMat (size A) (bmu A) (bml A) (smu A) (wr (data A) j c).

(** Modelled from the spec: the accessor macros of band.h.  BAND_COL(A,j) is
    [(A->data)[j] + A->smu], a pointer to the diagonal element of column j,
    and BAND_COL_ELEM(col_j,i,j) is [col_j[i-j]]: element (i,j) is stored at
    offset [smu + (i - j)] of column j. *)
Definition BAND_COL_ELEM (A : BandMat) (i j : Z) : R :=
  rd ZERO (band_col A j) (smu A + (i - j)).

Definition BAND_COL_ELEM_set (A : BandMat) (i j : Z) (x : R) : BandMat :=
  set_band_col A j (wr (band_col A j) (smu A + (i - j)) x).

(** Modelled from the spec: BandZero of band.c, which is not among the
    sources ("zero(): clears all stored entries"). *)
Definition BandZero (A : BandMat) : BandMat :=
  mkBandMat (size A) (bmu A) (bml A) (smu A) (map (map (λ _, ZERO)) (data A)).

(** The shape BandAllocMat(n, mu, ml, smu) gives a matrix: n columns of
    [smu + ml + 1] reals. *)
Definition band_shape (n mu ml su : Z) (A : BandMat) : Prop :=
  size A = n ∧ bmu A = mu ∧ bml A = ml ∧ smu A = su ∧
  length (data A) = Z.to_nat n ∧
  Forall (λ c, length c = Z.to_nat (su + ml + 1)) (data A).

(** ** Callbacks and the preconditioner data *)

Section Callbacks.

(** The user data behind the pointer [f_data]. *)
Context {fdata : Type}.

(** A call of a user routine, as seen from the preconditioner:
    [gcomm(Nlocal, udata, f_data)] with its input array, and
    [gloc(Nlocal, u, g, f_data)] with its input and the output it stored. *)
Inductive callback : Type :=
  | call_gcomm (u : N_Vector)
  | call_gloc (u : N_Vector) (g : N_Vector).

Definition is_gloc (c : callback) : bool :=
  match c with call_gloc _ _ => true | call_gcomm _ => false end.

Definition gloc_output (c : callback) : N_Vector :=
  match c with call_gloc _ g => g | call_gcomm _ => [] end.

(** The structure behind KBBDData.  The pointer [f_data] is handed to the
    callbacks unchanged; the user data it points to is the state [ud] that
    the functions below thread.  [gloc] stores g(u) and may update the user
    data, [gcomm] only updates the user data. *)
Record KBBDDataRec : Type := mkKBBDData {
  mu : Z;
  ml : Z;
  gloc : Z → N_Vector → fdata → N_Vector * fdata;
  gcomm : Z → N_Vector → fdata → fdata;
  PP : option BandMat;
  pivots : option (list Z);
  vtemp3 : option N_Vector;
  rel_uu : R;
  n_local : Z;
  rpwsize : Z;
  ipwsize : Z;
  nge : Z
}.

(** ** KBBDDQJac *)

(** The memory KBBDDQJac works on: the matrix J, the vectors uu, uscale, gu,
    gtemp and utemp (five distinct vectors), the user data and the record of
    the callbacks made so far. *)
Record dq_mem : Type := mkDq {
  dq_J : BandMat;
  dq_uu : N_Vector;
  dq_uscale : N_Vector;
  dq_gu : N_Vector;
  dq_gtemp : N_Vector;
  dq_utemp : N_Vector;
  dq_ud : fdata;
  dq_calls : list callback
}.

(** The indices visited by [for (j = j0; j < Nlocal; j += width)]. *)
Fixpoint stride (fuel : nat) (j width Nlocal : Z) : list Z :=
  match fuel with
  | O => []
  | S fuel' =>
      if decide (j < Nlocal) then j :: stride fuel' (j + width) width Nlocal
      else []
  end.

(** With [width >= 1] the loop from [group - 1] makes at most
    [Nlocal - (group - 1)] steps. *)
Definition group_cols (group width Nlocal : Z) : list Z :=
  stride (Z.to_nat (Nlocal - (group - 1))) (group - 1) width Nlocal.

(** [inc = rel_uu * MAX(ABS(udata[j]), ONE/uscdata[j])]. *)
Definition dq_inc (rel : R) (udata uscdata : N_Vector) (j : Z) : R :=
  rmul rel (MAX (ABS (rd ZERO udata j)) (rdiv ONE (rd ZERO uscdata j))).

(** Body of the first inner loop: [utempdata[j] += inc]. *)
Definition perturb (rel : R) (udata uscdata : N_Vector)
    (utempdata : N_Vector) (j : Z) : N_Vector :=
  let inc := dq_inc rel udata uscdata j in
  wr utempdata j (radd (rd ZERO utempdata j) inc).

(** The innermost loop: for i = i1 .. i2,
    [BAND_COL_ELEM(col_j,i,j) = inc_inv * (gtempdata[i] - gudata[i])]. *)
Definition load_col (J : BandMat) (inc_inv : R) (gtempdata gudata : N_Vector)
    (j i1 i2 : Z) : BandMat :=
  fold_left
    (λ J i, BAND_COL_ELEM_set J i j
              (rmul inc_inv (rsub (rd ZERO gtempdata i) (rd ZERO gudata i))))
    (seqZ i1 (i2 - i1 + 1)) J.

(** Body of the second inner loop: restore utemp[j], then form and load the
    difference quotients of column j. *)
Definition restore_load (pdata : KBBDDataRec) (Nlocal : Z)
    (udata uscdata gudata gtempdata : N_Vector)
    (st : N_Vector * BandMat) (j : Z) : N_Vector * BandMat :=
  let '(utempdata, J) := st in
  let utempdata := wr utempdata j (rd ZERO udata j) in
  let inc := dq_inc (rel_uu pdata) udata uscdata j in
  let inc_inv := rdiv ONE inc in
  let i1 := Z.max 0 (j - mu pdata) in
  let i2 := Z.min (j + ml pdata) (Nlocal - 1) in
  (utempdata, load_col J inc_inv gtempdata gudata j i1 i2).

(** Body of the loop over groups. *)
Definition dq_group (pdata : KBBDDataRec) (Nlocal width : Z)
    (m : dq_mem) (group : Z) : dq_mem :=
  let udata := dq_uu m in
  let uscdata := dq_uscale m in
  let cols := group_cols group width Nlocal in
  (* Increment all u_j in group. *)
  let utemp := fold_left (perturb (rel_uu pdata) udata uscdata) cols (dq_utemp m) in
  (* Evaluate g with incremented u. *)
  let '(gtemp, ud) := gloc pdata Nlocal utemp (dq_ud m) in
  (* Restore utemp, then form and load difference quotients. *)
  let '(utemp', J) :=
    fold_left (restore_load pdata Nlocal udata uscdata (dq_gu m) gtemp)
      cols (utemp, dq_J m) in
  mkDq J udata uscdata (dq_gu m) gtemp utemp' ud
    (dq_calls m ++ [call_gloc utemp gtemp]).

(** The state when the loop over groups starts: utemp loaded with uu, gcomm
    and gloc called for the base value g(uu).  The previous contents of gu
    and utemp are overwritten; those of gtemp stay until the first group. *)
Definition dq_base (Nlocal : Z) (J : BandMat) (pdata : KBBDDataRec)
    (uu uscale gu gtemp utemp : N_Vector) (ud : fdata) : dq_mem :=
  let utemp := N_VScale ONE uu in
  let ud1 := gcomm pdata Nlocal uu ud in
  let '(gu, ud2) := gloc pdata Nlocal uu ud1 in
  mkDq J uu uscale gu gtemp utemp ud2 [call_gcomm uu; call_gloc uu gu].

(** KBBDDQJac(Nlocal, J, P_data, uu, uscale, gu, gtemp, utemp). *)
Definition KBBDDQJac (Nlocal : Z) (J : BandMat) (pdata : KBBDDataRec)
    (uu uscale gu gtemp utemp : N_Vector) (ud : fdata) : dq_mem :=
  let m0 := dq_base Nlocal J pdata uu uscale gu gtemp utemp ud in
  (* Set bandwidth and number of column groups for band differencing. *)
  let width := ml pdata + mu pdata + 1 in
  let ngroups := Z.min width Nlocal in
  fold_left (dq_group pdata Nlocal width) (seqZ 1 ngroups) m0.

(** ** What the loop over groups maintains *)

(** The number of calls of gloc in a callback record. *)
Definition num_gloc_calls (calls : list callback) : nat :=
  length (List.filter is_gloc calls).

(** Call number [k] of a callback record. *)
Definition nth_call (calls : list callback) (k : nat) : callback :=
  default (call_gcomm []) (calls !! k).

(** The base value g(uu) that KBBDDQJac obtains: the output of gloc on uu,
    after gcomm. *)
Definition G_base (Nlocal : Z) (pdata : KBBDDataRec) (uu : N_Vector)
    (ud : fdata) : N_Vector :=
  fst (gloc pdata Nlocal uu (gcomm pdata Nlocal uu ud)).

(** Component j of utemp when gloc is called for group [group]: components
    of the group are incremented, those of earlier groups have been restored
    to udata[j], those of later groups still hold ONE * udata[j] from
    N_VScale. *)
Definition group_input (rel : R) (width : Z) (uu uscale : N_Vector)
    (group j : Z) : R :=
  if decide (j mod width = group - 1)
  then radd (rmul ONE (rd ZERO uu j)) (dq_inc rel uu uscale j)
  else if decide (j mod width < group - 1) then rd ZERO uu j
  else rmul ONE (rd ZERO uu j).

(** The vectors and the callback record after [g] groups of KBBDDQJac. *)
Record dq_inv (pdata : KBBDDataRec) (Nlocal : Z)
    (uu uscale : N_Vector) (gu0 : N_Vector) (g : nat) (m : dq_mem) : Prop := {
  inv_uu : dq_uu m = uu;
  inv_uscale : dq_uscale m = uscale;
  inv_gu : dq_gu m = gu0;
  inv_calls_length : length (dq_calls m) = (g + 2)%nat;
  inv_gloc_count : num_gloc_calls (dq_calls m) = (g + 1)%nat;
  inv_call_gcomm : dq_calls m !! 0%nat = Some (call_gcomm uu);
  inv_call_base : dq_calls m !! 1%nat = Some (call_gloc uu gu0);
  inv_call_group : ∀ h : nat, (h < g)%nat →
    ∃ u gout, dq_calls m !! (h + 2)%nat = Some (call_gloc u gout) ∧
      length u = length uu ∧
      ∀ j, 0 ≤ j < Nlocal →
        rd ZERO u j
        = group_input (rel_uu pdata) (ml pdata + mu pdata + 1) uu uscale
            (Z.of_nat h + 1) j;
  inv_utemp_length : length (dq_utemp m) = length uu;
  inv_utemp : ∀ j, 0 ≤ j < Nlocal →
    rd ZERO (dq_utemp m) j
    = if decide (j mod (ml pdata + mu pdata + 1) < Z.of_nat g)
      then rd ZERO uu j else rmul ONE (rd ZERO uu j)
}.

(** The matrix after [g] groups of KBBDDQJac, started on the matrix [J0]:
    the columns of the groups done hold the difference quotients in their
    row range, every other stored value is the one of [J0]. *)
Record dq_J_inv (pdata : KBBDDataRec) (Nlocal : Z) (J0 : BandMat)
    (uu uscale : N_Vector) (gu0 : N_Vector) (g : nat) (m : dq_mem) : Prop := {
  inv_J_size : size (dq_J m) = size J0;
  inv_J_bmu : bmu (dq_J m) = bmu J0;
  inv_J_bml : bml (dq_J m) = bml J0;
  inv_J_smu : smu (dq_J m) = smu J0;
  inv_J_columns : length (data (dq_J m)) = length (data J0);
  inv_J_height : ∀ j, length (band_col (dq_J m) j) = length (band_col J0 j);
  inv_J_old : ∀ j k, 0 ≤ j < Nlocal →
    ¬ (j mod (ml pdata + mu pdata + 1) < Z.of_nat g ∧
       Z.max 0 (j - mu pdata) ≤ k - smu J0 + j
         ≤ Z.min (j + ml pdata) (Nlocal - 1)) →
    rd ZERO (band_col (dq_J m) j) k = rd ZERO (band_col J0 j) k;
  inv_J_new : ∀ j i, 0 ≤ j < Nlocal →
    j mod (ml pdata + mu pdata + 1) < Z.of_nat g →
    Z.max 0 (j - mu pdata) ≤ i ≤ Z.min (j + ml pdata) (Nlocal - 1) →
    BAND_COL_ELEM (dq_J m) i j
    = rmul (rdiv ONE (dq_inc (rel_uu pdata) uu uscale j))
        (rsub
           (rd ZERO
              (gloc_output
                 (nth_call (dq_calls m)
                    (Z.to_nat (j mod (ml pdata + mu pdata + 1)) + 2)))
              i)
           (rd ZERO gu0 i))
}.

(** ** KBBDAlloc *)

(** The part of the KINSOL memory KBBDAlloc reads: the machine environment
    (its tag and whether the four vector operations are set) and the unit
    roundoff. *)
Record M_EnvRec : Type := mkMEnv {
  tag : string;
  nvmake : bool;
  nvdispose : bool;
  nvgetdata : bool;
  nvsetdata : bool
}.

Record KINMemRec : Type := mkKINMem {
  kin_machenv : M_EnvRec;
  kin_uround : R
}.

(** What the allocations made by KBBDAlloc return: whether malloc gives the
    KBBDData block, and the results of BandAllocMat, BandAllocPiv and N_VNew
    (None is NULL). *)
Record allocator : Type := mkAlloc {
  malloc_pdata : bool;
  BandAllocMat : Z → Z → Z → Z → option BandMat;
  BandAllocPiv : Z → option (list Z);
  N_VNew : Z → M_EnvRec → option N_Vector
}.

Definition is_NULL {A : Type} (p : option A) : bool :=
  match p with None => true | Some _ => false end.

(** KBBDAlloc(Nlocal, mu, ml, dq_rel_uu, gloc, gcomm, f_data, kinmem).
    The pointer f_data is not an argument of the model (the user data are
    threaded by the functions that call the callbacks), and the messages
    printed on errfp are not modelled.  The result is [Some None] for
    return(NULL) and [Some (Some pdata)] for the data returned.  When kinmem
    is NULL the function prints on errfp, which is kin_mem->kin_msgfp: it
    goes through the NULL pointer before its return(NULL), which is
    undefined in C, and the model gives None.  The test after BandAllocPiv
    is the one of the source: it looks at PP again.  KBBDFree only releases
    memory; it is modelled with the memory events below. *)
Definition KBBDAlloc (al : allocator) (Nlocal mu ml : Z) (dq_rel_uu : R)
    (gloc : Z → N_Vector → fdata → N_Vector * fdata)
    (gcomm : Z → N_Vector → fdata → fdata)
    (kinmem : option KINMemRec) : option (option KBBDDataRec) :=
  match kinmem with
  | None => None
  | Some kin_mem =>
      let machenv := kin_machenv kin_mem in
      (* Test if the NVECTOR package is compatible with the BAND preconditioner *)
      if negb (String.eqb (tag machenv) "parallel")
         || negb (nvmake machenv) || negb (nvdispose machenv)
         || negb (nvgetdata machenv) || negb (nvsetdata machenv)
      then Some None
      else if negb (malloc_pdata al) then Some None
      else
        (* Allocate memory for preconditioner matrix. *)
        let pdata_PP := BandAllocMat al Nlocal mu ml (mu + ml) in
        if is_NULL pdata_PP then Some None
        else
          (* Allocate memory for pivots. *)
          let pdata_pivots := BandAllocPiv al Nlocal in
          if is_NULL pdata_PP then Some None
          else
            (* Allocate vtemp3 for use by KBBDDQJac. *)
            let vtemp3 := N_VNew al Nlocal machenv in
            if is_NULL vtemp3 then Some None
            else
              (* set rel_uu based on input value dq_rel_uu *)
              let rel_uu :=
                if rltb ZERO dq_rel_uu then dq_rel_uu
                else RSqrt (kin_uround kin_mem) in
              Some (Some (mkKBBDData mu ml gloc gcomm pdata_PP pdata_pivots
                            vtemp3 rel_uu Nlocal (Nlocal * (2 * mu + ml + 1))
                            Nlocal 0))
  end.

(** ** KBBDPrecon and KBBDPSol *)

(** BandFactor and BandBacksolve of band.c, which is not among the sources,
    are parameters.  [BandFactor A p] factors A in place, stores the pivot
    rows in p and returns a code; [BandBacksolve A p b] solves in place in
    b and writes neither A nor p. *)
Class BandSolver : Type := {
  BandFactor : BandMat → list Z → BandMat * list Z * Z;
  BandBacksolve : BandMat → list Z → list R → list R
}.

Context {BS : BandSolver}.

(** What KBBDPrecon leaves behind: the preconditioner data, the vectors it
    was given, the user data, the callbacks it made and its return value. *)
Record precon_out : Type := mkPreconOut {
  po_pdata : KBBDDataRec;
  po_uu : N_Vector;
  po_uscale : N_Vector;
  po_vtemp1 : N_Vector;
  po_vtemp2 : N_Vector;
  po_ud : fdata;
  po_calls : list callback;
  po_ret : Z
}.

(** KBBDPrecon(Neq, uu, uscale, fval, fscale, vtemp1, vtemp2, func, uround,
    nfePtr, P_data).  The arguments Neq, fval, fscale, func, uround and
    nfePtr are not used by the function and are left out.  Going through a
    NULL pointer is undefined in C: the model gives None. *)
Definition KBBDPrecon (uu uscale vtemp1 vtemp2 : N_Vector)
    (pdata : KBBDDataRec) (ud : fdata) : option precon_out :=
  vtemp3 ← vtemp3 pdata;
  let Nlocal := n_local pdata in
  (* Call KBBDDQJac for a new Jacobian and store in PP. *)
  PP0 ← PP pdata;
  let m := KBBDDQJac Nlocal (BandZero PP0) pdata uu uscale vtemp1 vtemp2 vtemp3 ud in
  let nge' := nge pdata + (1 + Z.min (ml pdata + mu pdata + 1) Nlocal) in
  (* Do LU factorization of P in place (in PP). *)
  piv ← pivots pdata;
  let '(A, p, ier) := BandFactor (dq_J m) piv in
  let pdata' :=
    mkKBBDData (mu pdata) (ml pdata) (gloc pdata) (gcomm pdata)
      (Some A) (Some p) (Some (dq_utemp m)) (rel_uu pdata) (n_local pdata)
      (rpwsize pdata) (ipwsize pdata) nge' in
  (* Return 0 if the LU was complete; otherwise return 1. *)
  Some (mkPreconOut pdata' (dq_uu m) (dq_uscale m) (dq_gu m) (dq_gtemp m)
          (dq_ud m) (dq_calls m) (if decide (ier > 0) then 1 else 0)).

(** KBBDPSol(Nlocal, uu, uscale, fval, fscale, vtem, ftem, func, u_round,
    nfePtr, P_data): only vtem and P_data are used.  The result is the
    preconditioner data after the call, the new vtem and the return value. *)
Definition KBBDPSol (vtem : N_Vector) (pdata : KBBDDataRec)
    : option (KBBDDataRec * N_Vector * Z) :=
  A ← PP pdata;
  piv ← pivots pdata;
  (* Do the backsolve and return. *)
  let vd := BandBacksolve A piv vtem in
  Some (pdata, vd, 0).

(** A run of the solver as the preconditioner sees it: KBBDPrecon called
    again and again, each time with the vectors of that call. *)
Fixpoint precon_seq (args : list (N_Vector * N_Vector * N_Vector * N_Vector))
    (pdata : KBBDDataRec) (ud : fdata) : option (KBBDDataRec * fdata) :=
  match args with
  | [] => Some (pdata, ud)
  | (uu, uscale, vtemp1, vtemp2) :: rest =>
      out ← KBBDPrecon uu uscale vtemp1 vtemp2 pdata ud;
      precon_seq rest (po_pdata out) (po_ud out)
  end.

(** Two properties of a band factorization at a matrix J and a pivot array:
    it keeps the dimensions of the storage, and run again on the pivot
    array it has filled it gives the same factors, pivots and code. *)
Definition factor_stable (J : BandMat) (piv : list Z) : Prop :=
  let '(A, p, ier) := BandFactor J piv in
  BandZero A = BandZero J ∧ BandFactor J p = (A, p, ier).

End Callbacks.

End Embedding.

(** ** The band routines, for running the model *)

Section BandLU.

Context {R : Type} {RA : RealArith R}.

(** ROW(i,j,smu) of band.c: the offset of element (i,j) in column j. *)
Definition ROW (i j su : Z) : Z := i - j + su.

(** The search for the pivot row of step k: the row l in k .. last_row_k
    with the largest |a(l,k)|, the first one on ties. *)
Definition find_pivot (col_k : list R) (su k last_row_k : Z) : Z :=
  fst (fold_left
         (λ '(l, mx) i,
            let v := ABS (rd ZERO col_k (ROW i k su)) in
            if rltb mx v then (i, v) else (l, mx))
         (seqZ (k + 1) (last_row_k - k))
         (k, ABS (rd ZERO col_k (ROW k k su)))).

(** The update of column j in step k: swap a(k,j) and a(l,j) when rows were
    swapped, then a(i,j) += a(k,j) * a(i,k) for the rows below k, a(i,k)
    holding the multipliers. *)
Definition elim_col (col_k : list R) (su k l last_row_k : Z)
    (a : list (list R)) (j : Z) : list (list R) :=
  let col_j := rd [] a j in
  let storage_l := ROW l j su in
  let storage_k := ROW k j su in
  let a_kj := rd ZERO col_j storage_l in
  let col_j :=
    if decide (l ≠ k)
    then wr (wr col_j storage_l (rd ZERO col_j storage_k)) storage_k a_kj
    else col_j in
  let col_j :=
    if reqb a_kj ZERO then col_j
    else fold_left
           (λ c i, wr c (ROW i j su)
                     (radd (rd ZERO c (ROW i j su))
                        (rmul a_kj (rd ZERO col_k (ROW i k su)))))
           (seqZ (k + 1) (last_row_k - k)) col_j in
  wr a j col_j.

(** One elimination step.  The state is the array, the pivot array and the
    return value once a zero pivot has been met. *)
Definition gbfa_step (n ml_ su : Z)
    (st : list (list R) * list Z * option Z) (k : Z)
    : list (list R) * list Z * option Z :=
  let '(a, p, ret) := st in
  match ret with
  | Some _ => st
  | None =>
      let col_k := rd [] a k in
      let last_row_k := Z.min (n - 1) (k + ml_) in
      let l := find_pivot col_k su k last_row_k in
      let p := wr p k l in
      if reqb (rd ZERO col_k (ROW l k su)) ZERO then (a, p, Some (k + 1))
      else
        let col_k :=
          if decide (l ≠ k)
          then wr (wr col_k (ROW l k su) (rd ZERO col_k (ROW k k su)))
                 (ROW k k su) (rd ZERO col_k (ROW l k su))
          else col_k in
        let mult := rdiv (ropp ONE) (rd ZERO col_k (ROW k k su)) in
        let col_k :=
          fold_left (λ c i, wr c (ROW i k su) (rmul (rd ZERO c (ROW i k su)) mult))
            (seqZ (k + 1) (last_row_k - k)) col_k in
        let a := wr a k col_k in
        let last_col_k := Z.min (k + su) (n - 1) in
        (fold_left (elim_col col_k su k l last_row_k)
           (seqZ (k + 1) (last_col_k - k)) a, p, None)
  end.

(** Modelled from the spec: BandFactor of band.c (its routine gbfa), which
    is not among the sources: "Gaussian elimination with partial pivoting
    restricted to the stored band"; it "reports a 1-based column index if a
    zero pivot is encountered" and 0 when the factorization is complete.
    The rows of the storage above the band are cleared first; they receive
    the fill-in. *)
Definition gbfa (a : list (list R)) (n mu_ ml_ su : Z) (p : list Z)
    : list (list R) * list Z * Z :=
  let a :=
    map (λ c, fold_left (λ c r, wr c r ZERO) (seqZ 0 (su - mu_)) c) a in
  let '(a, p, ret) :=
    fold_left (gbfa_step n ml_ su) (seqZ 0 (n - 1)) (a, p, None) in
  match ret with
  | Some code => (a, p, code)
  | None =>
      let p := wr p (n - 1) (n - 1) in
      if reqb (rd ZERO (rd [] a (n - 1)) su) ZERO then (a, p, n)
      else (a, p, 0)
  end.

(** Forward elimination of [gbsl]: solve L y = P b in b. *)
Definition gbsl_forward (a : list (list R)) (n su ml_ : Z) (p : list Z)
    (b : list R) (k : Z) : list R :=
  let l := rd 0 p k in
  let mult := rd ZERO b l in
  let b := if decide (l ≠ k) then wr (wr b l (rd ZERO b k)) k mult else b in
  let col_k := rd [] a k in
  let last_row_k := Z.min (n - 1) (k + ml_) in
  fold_left
    (λ b i, wr b i (radd (rd ZERO b i) (rmul mult (rd ZERO col_k (ROW i k su)))))
    (seqZ (k + 1) (last_row_k - k)) b.

(** Back substitution of [gbsl]: solve U x = y in b, for k = n-1 .. 0. *)
Definition gbsl_backward (a : list (list R)) (su : Z) (b : list R) (k : Z)
    : list R :=
  let col_k := rd [] a k in
  let first_row_k := Z.max 0 (k - su) in
  let b := wr b k (rdiv (rd ZERO b k) (rd ZERO col_k (ROW k k su))) in
  let mult := ropp (rd ZERO b k) in
  fold_left
    (λ b i, wr b i (radd (rd ZERO b i) (rmul mult (rd ZERO col_k (ROW i k su)))))
    (seqZ first_row_k (k - first_row_k)) b.

(** Modelled from the spec: BandBacksolve of band.c (its routine gbsl),
    which is not among the sources: it "applies forward elimination then back
    substitution using the stored LU factors and pivot sequence in place on
    the right-hand side". *)
Definition gbsl (a : list (list R)) (n su ml_ : Z) (p : list Z) (b : list R)
    : list R :=
  let b := fold_left (gbsl_forward a n su ml_ p) (seqZ 0 (n - 1)) b in
  fold_left (gbsl_backward a su) (reverse (seqZ 0 n)) b.

(** A list of stores [p[k] = l] into a pivot array, in order. *)
Definition put_all (stores : list (Z * Z)) (p : list Z) : list Z :=
  fold_left (λ p kl, wr p kl.1 kl.2) stores p.

(** The band routines as the solver KBBDPrecon and KBBDPSol call. *)
Definition band_c : BandSolver (R := R) := {|
  BandFactor A p :=
    let '(a, p', ier) := gbfa (data A) (size A) (bmu A) (bml A) (smu A) p in
    (mkBandMat (size A) (bmu A) (bml A) (smu A) a, p', ier);
  BandBacksolve A p b := gbsl (data A) (size A) (smu A) (bml A) p b
|}.

(** Modelled from the spec: BandAllocMat and BandAllocPiv of band.c and
    N_VNew, which are not among the sources, when memory is available: the
    "Banded Matrix Store, pivot array, and work vectors sized to localSize".
    BandAllocMat gives NULL for N <= 0.  What the fresh memory holds is not
    specified: [junk] and [junkp] stand for it. *)
Definition alloc_ok (junk : R) (junkp : Z) : allocator (R := R) := {|
  malloc_pdata := true;
  BandAllocMat n mu_ ml_ su :=
    if decide (n ≤ 0) then None
    else Some (mkBandMat n mu_ ml_ su
                 (replicate (Z.to_nat n) (replicate (Z.to_nat (su + ml_ + 1)) junk)));
  BandAllocPiv n := Some (replicate (Z.to_nat n) junkp);
  N_VNew n _ := Some (replicate (Z.to_nat n) junk)
|}.

End BandLU.

(** ** Two carriers for realtype *)

(** IEEE binary64, the C double.  RSqrt is the one of sundialsmath: zero for
    an argument that is not positive. *)
Definition float_arith : RealArith float := {|
  ZERO := 0%float;
  ONE := 1%float;
  radd := PrimFloat.add;
  rsub := PrimFloat.sub;
  rmul := PrimFloat.mul;
  rdiv := PrimFloat.div;
  ropp := PrimFloat.opp;
  rltb := PrimFloat.ltb;
  reqb := PrimFloat.eqb;
  RSqrt x := if PrimFloat.leb x 0%float then 0%float else PrimFloat.sqrt x
|}.

(** Exact rational arithmetic.  The Standard Library makes 1/0 = 0 on
    rationals.  RSqrt is the root rounded down to a multiple of 2^-32. *)
Definition Qc_arith : RealArith Qc := {|
  ZERO := 0%Qc;
  ONE := 1%Qc;
  radd := Qcplus;
  rsub := Qcminus;
  rmul := Qcmult;
  rdiv := Qcdiv;
  ropp := Qcopp;
  rltb a b := if Qclt_le_dec a b then true else false;
  reqb := Qc_eq_bool;
  RSqrt x :=
    Q2Qc (Z.sqrt (Qnum x * Zpos (Qden x) * 2 ^ 64) # (Qden x * 2 ^ 32))
|}.

(** ** A small problem for running the model *)

Section Tridiagonal.

Context {R : Type} {RA : RealArith R}.

(** A local function with a ghost value: g_i = 2 u_i - u_(i-1) - u_(i+1),
    where u_(-1) is the value received by the last exchange and
    u_Nlocal = 0.  The user data is that ghost value; gcomm stores the last
    component of u in it. *)
Definition tri_gcomm (Nlocal : Z) (u : N_Vector) (ghost : R) : R :=
  rd ZERO u (Nlocal - 1).

Definition tri_gloc (Nlocal : Z) (u : N_Vector) (ghost : R) : N_Vector * R :=
  (map (λ i, rsub (rsub (rmul (radd ONE ONE) (rd ZERO u i))
                     (if decide (i = 0) then ghost else rd ZERO u (i - 1)))
               (rd ZERO u (i + 1)))
     (seqZ 0 Nlocal),
   ghost).

(** A local function whose Jacobian is singular: g_i = u_0 for every i. *)
Definition flat_gloc (Nlocal : Z) (u : N_Vector) (ghost : R) : N_Vector * R :=
  (map (λ _, rd ZERO u 0) (seqZ 0 Nlocal), ghost).

Definition ex_machenv : M_EnvRec := mkMEnv "parallel" true true true true.

(** An allocator whose BandAllocPiv fails while the other three
    allocations succeed. *)
Definition alloc_no_pivots (junk : R) : allocator (R := R) :=
  mkAlloc true (BandAllocMat (alloc_ok junk 0)) (λ _, None)
    (N_VNew (alloc_ok junk 0)).

End Tridiagonal.

(** The problem in doubles: four unknowns, half-bandwidths 1 and 1. *)
Module DoubleEx.

#[local] Existing Instance float_arith.

Definition kinmem : option (KINMemRec (R := float)) :=
  Some (mkKINMem ex_machenv 0x1p-52%float).

Definition alloc : allocator (R := float) :=
  alloc_ok 7%float 99.

Definition uu : list float := [1; 2; 3; 4]%float.
Definition uscale : list float := [1; 1; 1; 1]%float.

(** Another iterate, and a scaling vector with a zero component. *)
Definition uu49 : list float := [49; 2; 3; 4]%float.
Definition uscale0 : list float := [0; 1; 1; 1]%float.

Definition handle (gl : Z → list float → float → list float * float)
    : option (option (@KBBDDataRec float float)) :=
  KBBDAlloc (RA := float_arith) alloc 4 1 1 0%float gl tri_gcomm kinmem.

(** The data KBBDAlloc returns, written out. *)
Definition pdata_of (gl : Z → list float → float → list float * float)
    : @KBBDDataRec float float :=
  mkKBBDData 1 1 gl (tri_gcomm (RA := float_arith))
    (BandAllocMat alloc 4 1 1 2) (BandAllocPiv alloc 4)
    (N_VNew alloc 4 ex_machenv) 0x1p-26%float 4 16 4 0.

Definition pdata : @KBBDDataRec float float :=
  pdata_of (tri_gloc (RA := float_arith)).

Definition pdata_flat : @KBBDDataRec float float :=
  pdata_of (flat_gloc (RA := float_arith)).

End DoubleEx.

(** The same problem in exact arithmetic, with relative increment 1/2. *)
Module ExactEx.

#[local] Existing Instance Qc_arith.

Definition q (z : Z) : Qc := Q2Qc (inject_Z z).

Definition uu : list Qc := map q [1; 2; 3; 4].
Definition uscale : list Qc := map q [1; 1; 1; 1].

Definition J0 : BandMat (R := Qc) :=
  mkBandMat 4 1 1 2 (replicate 4 (replicate 4 (q 7))).

Definition pdata : @KBBDDataRec Qc Qc :=
  mkKBBDData 1 1 (tri_gloc (RA := Qc_arith)) (tri_gcomm (RA := Qc_arith))
    (Some J0) (Some [99; 99; 99; 99]) (Some (replicate 4 (q 7)))
    (Q2Qc (1 # 2)) 4 16 4 0.

End ExactEx.

(** ** The return codes of the nonlinear solver interface *)

(** The names defined in part V of the header (src/unnamed/part_000, lines
    180-202).  SUN_NLS_SUCCESS is defined twice, both times as 0. *)
Inductive nls_code : Type :=
  | SUN_NLS_SUCCESS
  | SUN_NLS_MEM_NULL
  | SUN_NLS_ILL_INPUT
  | SUN_NLS_MEM_FAIL
  | SUN_NLS_SYS_RECVR
  | SUN_NLS_SYS_FAIL
  | SUN_NLS_LSETUP_RECVR
  | SUN_NLS_LSETUP_FAIL
  | SUN_NLS_LSOLVE_RECVR
  | SUN_NLS_LSOLVE_FAIL
  | SUN_NLS_NCONV_RECVR
  | SUN_NLS_VECTOROP_ERR
  | NLS_CONTINUE.

(** The value each name is defined as. *)
Definition code_value (c : nls_code) : Z :=
  match c with
  | SUN_NLS_SUCCESS => 0
  | SUN_NLS_MEM_NULL => -1
  | SUN_NLS_ILL_INPUT => -2
  | SUN_NLS_MEM_FAIL => -1
  | SUN_NLS_SYS_RECVR => 1
  | SUN_NLS_SYS_FAIL => -8
  | SUN_NLS_LSETUP_RECVR => 2
  | SUN_NLS_LSETUP_FAIL => -6
  | SUN_NLS_LSOLVE_RECVR => 3
  | SUN_NLS_LSOLVE_FAIL => -7
  | SUN_NLS_NCONV_RECVR => 4
  | SUN_NLS_VECTOROP_ERR => -28
  | NLS_CONTINUE => 6
  end.

(** The recoverable conditions: system, linear setup, linear solve,
    non-convergence. *)
Definition recoverable (c : nls_code) : bool :=
  match c with
  | SUN_NLS_SYS_RECVR | SUN_NLS_LSETUP_RECVR | SUN_NLS_LSOLVE_RECVR
  | SUN_NLS_NCONV_RECVR => true
  | _ => false
  end.

(** The fatal conditions: null memory, illegal input, memory failure,
    failure of the system, of the linear setup, of the linear solve, and
    vector operation error. *)
Definition fatal (c : nls_code) : bool :=
  match c with
  | SUN_NLS_MEM_NULL | SUN_NLS_ILL_INPUT | SUN_NLS_MEM_FAIL
  | SUN_NLS_SYS_FAIL | SUN_NLS_LSETUP_FAIL | SUN_NLS_LSOLVE_FAIL
  | SUN_NLS_VECTOROP_ERR => true
  | _ => false
  end.

(** ** The memory KBBDAlloc and KBBDFree obtain and release *)

(** The four pieces of memory behind a KBBDData: the structure itself, the
    band matrix, the pivot array and the work vector vtemp3. *)
Inductive block : Type := blk_pdata | blk_PP | blk_pivots | blk_vtemp3.

Definition block_eqb (b1 b2 : block) : bool :=
  match b1, b2 with
  | blk_pdata, blk_pdata | blk_PP, blk_PP
  | blk_pivots, blk_pivots | blk_vtemp3, blk_vtemp3 => true
  | _, _ => false
  end.

(** A successful allocation of a block, or a call of the routine that
    releases it (free, BandFreeMat, BandFreePiv). *)
Inductive mem_event : Type :=
  | ev_alloc (b : block)
  | ev_free (b : block).

(** The blocks held after a sequence of events. *)
Definition live_step (held : list block) (e : mem_event) : list block :=
  match e with
  | ev_alloc b => held ++ [b]
  | ev_free b => List.filter (λ x, negb (block_eqb x b)) held
  end.

Definition live (events : list mem_event) : list block :=
  fold_left live_step events [].

Section Resources.

Context {R : Type} {RA : RealArith R} {fdata : Type}.

(** KBBDAlloc once more, with the allocations and releases it makes on its
    way: malloc of the structure, BandAllocMat, BandAllocPiv, N_VNew, and
    the calls of free and BandFreeMat before a return(NULL).  As in
    KBBDAlloc, a NULL kinmem is dereferenced for the message and the result
    is None. *)
Definition KBBDAlloc_mem (al : allocator (R := R)) (Nlocal mu ml : Z)
    (dq_rel_uu : R)
    (gloc : Z → N_Vector → fdata → N_Vector * fdata)
    (gcomm : Z → N_Vector → fdata → fdata)
    (kinmem : option KINMemRec)
    : list mem_event * option (option (@KBBDDataRec R fdata)) :=
  match kinmem with
  | None => ([], None)
  | Some kin_mem =>
      let machenv := kin_machenv kin_mem in
      if negb (String.eqb (tag machenv) "parallel")
         || negb (nvmake machenv) || negb (nvdispose machenv)
         || negb (nvgetdata machenv) || negb (nvsetdata machenv)
      then ([], Some None)
      else if negb (malloc_pdata al) then ([], Some None)
      else
        let ev := [ev_alloc blk_pdata] in
        (* Allocate memory for preconditioner matrix. *)
        let pdata_PP := BandAllocMat al Nlocal mu ml (mu + ml) in
        if is_NULL pdata_PP then (ev ++ [ev_free blk_pdata], Some None)
        else
          let ev := ev ++ [ev_alloc blk_PP] in
          (* Allocate memory for pivots. *)
          let pdata_pivots := BandAllocPiv al Nlocal in
          let ev :=
            if is_NULL pdata_pivots then ev else ev ++ [ev_alloc blk_pivots] in
          if is_NULL pdata_PP
          then (ev ++ [ev_free blk_PP; ev_free blk_pdata], Some None)
          else
            (* Allocate vtemp3 for use by KBBDDQJac. *)
            let vtemp3 := N_VNew al Nlocal machenv in
            if is_NULL vtemp3 then (ev ++ [ev_free blk_pdata], Some None)
            else
              let rel_uu :=
                if rltb ZERO dq_rel_uu then dq_rel_uu
                else RSqrt (kin_uround kin_mem) in
              (ev ++ [ev_alloc blk_vtemp3],
               Some (Some (mkKBBDData mu ml gloc gcomm pdata_PP pdata_pivots
                             vtemp3 rel_uu Nlocal
                             (Nlocal * (2 * mu + ml + 1)) Nlocal 0)))
  end.

(** KBBDFree(pdata) of src/unnamed/part_002, lines 199-204: the calls
    BandFreeMat(pdata->PP), BandFreePiv(pdata->pivots) and free(pdata), as
    the releases of the matrix, of the pivot array and of the structure.
    Nothing else is released. *)
Definition KBBDFree (pdata : @KBBDDataRec R fdata) : list mem_event :=
  [ev_free blk_PP; ev_free blk_pivots; ev_free blk_pdata].

(** ** A local function that is affine with a banded matrix *)

(** The sum of f over a list of indices, added from the right. *)
Definition rsum (f : Z → R) (l : list Z) : R :=
  fold_right (λ j acc, radd (f j) acc) ZERO l.

(** The local function g(u) = A u + b on Nlocal unknowns; it does not use
    the user data. *)
Definition affine_gloc (A : Z → Z → R) (b : Z → R) (Nlocal : Z)
    (u : N_Vector) (ud : fdata) : N_Vector * fdata :=
  (map (λ i, radd (rsum (λ j, rmul (A i j) (rd ZERO u j)) (seqZ 0 Nlocal)) (b i))
     (seqZ 0 Nlocal),
   ud).

End Resources.

(** ** The Fortran interface to the matrix constructors *)

Section FortranMatrix.

(** The matrices behind the type SUNMatrix. *)
Context {SUNMatrix : Type}.

(** The solver identifiers FCMIX_CVODE, FCMIX_IDA, FCMIX_KINSOL and
    FCMIX_ARKODE of sundials_fnvector.h, which is not among the sources. *)
Record fcmix_ids : Type := mkFcmix {
  FCMIX_CVODE : Z;
  FCMIX_IDA : Z;
  FCMIX_KINSOL : Z;
  FCMIX_ARKODE : Z
}.

(** The four global matrix variables; None is NULL. *)
Record F2C_matrices : Type := mkF2C {
  F2C_CVODE_matrix : option SUNMatrix;
  F2C_IDA_matrix : option SUNMatrix;
  F2C_KINSOL_matrix : option SUNMatrix;
  F2C_ARKODE_matrix : option SUNMatrix
}.

(** FSUNMATRIX_INITS(code, M, N, NNZ, sparsetype, ier) of
    src/unnamed/part_002, lines 40-69.  SUNMatrixNew_Sparse is a parameter;
    the result is the global variables and the value left in ier.  The
    switch is a chain of tests in the order of its labels. *)
Definition FSUNMATRIX_INITS (ids : fcmix_ids)
    (SUNMatrixNew_Sparse : Z → Z → Z → Z → option SUNMatrix)
    (g : F2C_matrices) (code M N NNZ sparsetype : Z) : F2C_matrices * Z :=
  let ier := 0 in
  if decide (code = FCMIX_CVODE ids) then
    let g := mkF2C None (F2C_IDA_matrix g) (F2C_KINSOL_matrix g) (F2C_ARKODE_matrix g) in
    let g := mkF2C (SUNMatrixNew_Sparse M N NNZ sparsetype)
               (F2C_IDA_matrix g) (F2C_KINSOL_matrix g) (F2C_ARKODE_matrix g) in
    (g, if is_NULL (F2C_CVODE_matrix g) then -1 else ier)
  else if decide (code = FCMIX_IDA ids) then
    let g := mkF2C (F2C_CVODE_matrix g) None (F2C_KINSOL_matrix g) (F2C_ARKODE_matrix g) in
    let g := mkF2C (F2C_CVODE_matrix g) (SUNMatrixNew_Sparse M N NNZ sparsetype)
               (F2C_KINSOL_matrix g) (F2C_ARKODE_matrix g) in
    (g, if is_NULL (F2C_IDA_matrix g) then -1 else ier)
  else if decide (code = FCMIX_KINSOL ids) then
    let g := mkF2C (F2C_CVODE_matrix g) (F2C_IDA_matrix g) None (F2C_ARKODE_matrix g) in
    let g := mkF2C (F2C_CVODE_matrix g) (F2C_IDA_matrix g)
               (SUNMatrixNew_Sparse M N NNZ sparsetype) (F2C_ARKODE_matrix g) in
    (g, if is_NULL (F2C_KINSOL_matrix g) then -1 else ier)
  else if decide (code = FCMIX_ARKODE ids) then
    let g := mkF2C (F2C_CVODE_matrix g) (F2C_IDA_matrix g) (F2C_KINSOL_matrix g) None in
    let g := mkF2C (F2C_CVODE_matrix g) (F2C_IDA_matrix g) (F2C_KINSOL_matrix g)
               (SUNMatrixNew_Sparse M N NNZ sparsetype) in
    (g, if is_NULL (F2C_ARKODE_matrix g) then -1 else ier)
  else (g, -1).

(** FSUNMATRIX_INITD(code, M, N, ier) of
    src/src/sunmat_dense/fsunmatrix_dense.c, lines 40-68, with
    SUNMatrixNew_Dense as a parameter. *)
Definition FSUNMATRIX_INITD (ids : fcmix_ids)
    (SUNMatrixNew_Dense : Z → Z → option SUNMatrix)
    (g : F2C_matrices) (code M N : Z) : F2C_matrices * Z :=
  let ier := 0 in
  if decide (code = FCMIX_CVODE ids) then
    let g := mkF2C None (F2C_IDA_matrix g) (F2C_KINSOL_matrix g) (F2C_ARKODE_matrix g) in
    let g := mkF2C (SUNMatrixNew_Dense M N)
               (F2C_IDA_matrix g) (F2C_KINSOL_matrix g) (F2C_ARKODE_matrix g) in
    (g, if is_NULL (F2C_CVODE_matrix g) then -1 else ier)
  else if decide (code = FCMIX_IDA ids) then
    let g := mkF2C (F2C_CVODE_matrix g) None (F2C_KINSOL_matrix g) (F2C_ARKODE_matrix g) in
    let g := mkF2C (F2C_CVODE_matrix g) (SUNMatrixNew_Dense M N)
               (F2C_KINSOL_matrix g) (F2C_ARKODE_matrix g) in
    (g, if is_NULL (F2C_IDA_matrix g) then -1 else ier)
  else if decide (code = FCMIX_KINSOL ids) then
    let g := mkF2C (F2C_CVODE_matrix g) (F2C_IDA_matrix g) None (F2C_ARKODE_matrix g) in
    let g := mkF2C (F2C_CVODE_matrix g) (F2C_IDA_matrix g)
               (SUNMatrixNew_Dense M N) (F2C_ARKODE_matrix g) in
    (g, if is_NULL (F2C_KINSOL_matrix g) then -1 else ier)
  else if decide (code = FCMIX_ARKODE ids) then
    let g := mkF2C (F2C_CVODE_matrix g) (F2C_IDA_matrix g) (F2C_KINSOL_matrix g) None in
    let g := mkF2C (F2C_CVODE_matrix g) (F2C_IDA_matrix g) (F2C_KINSOL_matrix g)
               (SUNMatrixNew_Dense M N) in
    (g, if is_NULL (F2C_ARKODE_matrix g) then -1 else ier)
  else (g, -1).

(** The global variable a solver identifier selects, if any. *)
Definition F2C_matrix_of (ids : fcmix_ids) (g : F2C_matrices) (code : Z)
    : option (option SUNMatrix) :=
  if decide (code = FCMIX_CVODE ids) then Some (F2C_CVODE_matrix g)
  else if decide (code = FCMIX_IDA ids) then Some (F2C_IDA_matrix g)
  else if decide (code = FCMIX_KINSOL ids) then Some (F2C_KINSOL_matrix g)
  else if decide (code = FCMIX_ARKODE ids) then Some (F2C_ARKODE_matrix g)
  else None.

End FortranMatrix.

(** Four distinct identifiers for the examples. *)
Definition fcmix_std : fcmix_ids := mkFcmix 1 2 3 4.

(** A band matrix for the exact problem: main diagonal 2, first lower
    diagonal -1, first upper diagonal -3, and a shift vector. *)
Module AffineEx.

Definition A (i j : Z) : Qc :=
  if decide (i = j) then ExactEx.q 2
  else if decide (i = j + 1) then ExactEx.q (-1)
  else if decide (i = j - 1) then ExactEx.q (-3)
  else ExactEx.q 0.

Definition b (i : Z) : Qc := ExactEx.q (i + 5).

Definition pdata : @KBBDDataRec Qc Qc :=
  mkKBBDData 1 1 (affine_gloc (RA := Qc_arith) A b) (tri_gcomm (RA := Qc_arith))
    (Some ExactEx.J0) (Some [99; 99; 99; 99]) (Some (replicate 4 (ExactEx.q 7)))
    (Q2Qc (1 # 2)) 4 16 4 0.

End AffineEx.

(** * Properties *)

(** ** Arrays and band storage *)

Section ArrayFacts.

Context {A : Type}.
Implicit Types (a : list A) (i j : Z).

Lemma length_wr a i x : length (wr a i x) = length a.
Proof. unfold wr. case_decide; [apply length_insert | done]. Qed.

Lemma rd_wr_eq d a i x :
  0 ≤ i → (Z.to_nat i < length a)%nat → rd d (wr a i x) i = x.
Proof.
  intros Hi Hlen. unfold rd, wr. rewrite !decide_True by done.
  by rewrite list_lookup_insert_eq.
Qed.

Lemma rd_wr_ne d a i j x : i ≠ j → rd d (wr a i x) j = rd d a j.
Proof.
  intros Hne. unfold rd, wr. destruct (decide (0 ≤ j)); [|done].
  destruct (decide (0 ≤ i)); [|done].
  rewrite list_lookup_insert_ne; [done | lia].
Qed.

Lemma rd_lookup d a i x :
  0 ≤ i → a !! Z.to_nat i = Some x → rd d a i = x.
Proof. intros Hi Hx. unfold rd. rewrite decide_True by done. by rewrite Hx. Qed.

End ArrayFacts.

Section StrideFacts.

Implicit Types (j w N : Z) (fuel : nat).

Lemma stride_bounds fuel j0 w N j :
  0 ≤ w → j ∈ stride fuel j0 w N → j0 ≤ j < N.
Proof.
  intros Hw. revert j0. induction fuel as [|fuel IH]; intros j0; simpl.
  - by intros ?%elem_of_nil.
  - case_decide; [|by intros ?%elem_of_nil].
    intros [->|Hin]%elem_of_cons; [lia|]. apply IH in Hin. lia.
Qed.

Lemma NoDup_stride fuel j0 w N : 1 ≤ w → NoDup (stride fuel j0 w N).
Proof.
  intros Hw. revert j0. induction fuel as [|fuel IH]; intros j0; simpl.
  - constructor.
  - case_decide; [|constructor]. constructor; [|apply IH].
    intros Hin%stride_bounds; lia.
Qed.

(** The fuel of [stride] is enough: the list holds every index the loop
    visits. *)
Lemma elem_of_stride fuel j0 w N j :
  1 ≤ w → (Z.to_nat (N - j0) ≤ fuel)%nat →
  j ∈ stride fuel j0 w N ↔ j0 ≤ j < N ∧ (j - j0) mod w = 0.
Proof.
  intros Hw. revert j0. induction fuel as [|fuel IH]; intros j0 Hfuel; simpl.
  - split; [by intros ?%elem_of_nil | lia].
  - case_decide as Hlt; [|split; [by intros ?%elem_of_nil | lia]].
    rewrite elem_of_cons, IH by lia. split.
    + intros [->|[Hb Hm]].
      * split; [lia|]. by rewrite Z.sub_diag, Z.mod_0_l by lia.
      * split; [lia|]. replace (j - j0) with (j - (j0 + w) + 1 * w) by lia.
        by rewrite Z.mod_add by lia.
    + intros [Hb Hm]. destruct (decide (j = j0)) as [->|Hne]; [by left | right].
      apply Z.mod_divide in Hm as [q Hq]; [|lia].
      assert (1 ≤ q) by nia. split; [nia|].
      replace (j - (j0 + w)) with ((q - 1) * w) by lia.
      apply Z.mod_mul. lia.
Qed.

(** More fuel than [Nlocal - j0] gives the same list: the loop has ended. *)
Lemma stride_fuel fuel1 fuel2 j0 w N :
  1 ≤ w → (Z.to_nat (N - j0) ≤ fuel1)%nat → (Z.to_nat (N - j0) ≤ fuel2)%nat →
  stride fuel1 j0 w N = stride fuel2 j0 w N.
Proof.
  intros Hw. revert fuel2 j0.
  induction fuel1 as [|fuel1 IH]; intros [|fuel2] j0 H1 H2; simpl; try done.
  - case_decide; [lia | done].
  - case_decide; [lia | done].
  - case_decide; [|done]. f_equal. apply IH; lia.
Qed.

(** The columns of group [group]: the indices below [Nlocal] that are
    [group - 1] modulo [width]. *)
Lemma elem_of_group_cols group w N j :
  1 ≤ group ≤ w →
  j ∈ group_cols group w N ↔ 0 ≤ j < N ∧ j mod w = group - 1.
Proof.
  intros Hg. unfold group_cols. rewrite elem_of_stride by lia. split.
  - intros [Hb Hm]. split; [lia|].
    apply Z.mod_divide in Hm as [q Hq]; [|lia].
    replace j with (group - 1 + q * w) by lia.
    rewrite Z.mod_add by lia. apply Z.mod_small. lia.
  - intros [Hb Hm]. pose proof (Z.mod_pos_bound j w ltac:(lia)).
    pose proof (Z.mod_le j w ltac:(lia) ltac:(lia)).
    split; [lia|]. rewrite <- Hm.
    rewrite Zminus_mod, Z.mod_mod, Z.sub_diag by lia.
    apply Z.mod_0_l. lia.
Qed.

Lemma NoDup_group_cols group w N : 1 ≤ w → NoDup (group_cols group w N).
Proof. apply NoDup_stride. Qed.

End StrideFacts.

Section BandFacts.

Context {R : Type} {RA : RealArith R}.
Implicit Types (A J : BandMat (R := R)) (i j k : Z).

Lemma band_col_set_eq A j c :
  0 ≤ j → (Z.to_nat j < length (data A))%nat →
  band_col (set_band_col A j c) j = c.
Proof. intros. unfold band_col, set_band_col; simpl. by apply rd_wr_eq. Qed.

Lemma band_col_set_ne A j j' c :
  j ≠ j' → band_col (set_band_col A j c) j' = band_col A j'.
Proof. intros. unfold band_col, set_band_col; simpl. by apply rd_wr_ne. Qed.

(** Storing elements of column j: what stays. *)
Lemma fold_elem_set_frame (v : Z → R) j (l : list Z) J :
  0 ≤ j → (Z.to_nat j < length (data J))%nat →
  let J' := fold_left (λ J i, BAND_COL_ELEM_set J i j (v i)) l J in
  size J' = size J ∧ bmu J' = bmu J ∧ bml J' = bml J ∧ smu J' = smu J ∧
  length (data J') = length (data J) ∧
  (∀ j', j ≠ j' → band_col J' j' = band_col J j') ∧
  length (band_col J' j) = length (band_col J j).
Proof.
  intros Hj. revert J. induction l as [|i l IH]; intros J Hlen; simpl.
  - done.
  - set (J1 := BAND_COL_ELEM_set J i j (v i)).
    assert (Hlen1 : length (data J1) = length (data J))
      by (unfold J1, BAND_COL_ELEM_set, set_band_col; simpl; apply length_wr).
    destruct (IH J1) as (H1 & H2 & H3 & H4 & H5 & H6 & H7); [lia|].
    rewrite H1, H2, H3, H4, H5, H7. repeat split; try done.
    + intros j' Hne. rewrite H6 by done. by apply band_col_set_ne.
    + unfold J1, BAND_COL_ELEM_set. rewrite band_col_set_eq by done.
      apply length_wr.
Qed.

(** Storing elements of column j: the offsets that are not stored to keep
    their value. *)
Lemma fold_elem_set_other (v : Z → R) j (l : list Z) J k :
  0 ≤ j → (Z.to_nat j < length (data J))%nat →
  (∀ i, i ∈ l → smu J + (i - j) ≠ k) →
  rd ZERO (band_col (fold_left (λ J i, BAND_COL_ELEM_set J i j (v i)) l J) j) k
  = rd ZERO (band_col J j) k.
Proof.
  intros Hj. revert J. induction l as [|i l IH]; intros J Hlen Hk; simpl.
  - done.
  - set (J1 := BAND_COL_ELEM_set J i j (v i)).
    assert (Hlen1 : length (data J1) = length (data J))
      by (unfold J1, BAND_COL_ELEM_set, set_band_col; simpl; apply length_wr).
    rewrite (IH J1).
    + unfold J1, BAND_COL_ELEM_set. rewrite band_col_set_eq by done.
      apply rd_wr_ne. apply Hk. by left.
    + lia.
    + intros i' Hi'. apply Hk. by right.
Qed.

(** Storing elements of column j: each stored element is read back. *)
Lemma fold_elem_set_written (v : Z → R) j (l : list Z) J i :
  0 ≤ j → (Z.to_nat j < length (data J))%nat →
  NoDup l → i ∈ l →
  0 ≤ smu J + (i - j) →
  (Z.to_nat (smu J + (i - j)) < length (band_col J j))%nat →
  rd ZERO (band_col (fold_left (λ J i, BAND_COL_ELEM_set J i j (v i)) l J) j)
     (smu J + (i - j))
  = v i.
Proof.
  intros Hj. revert J. induction l as [|i0 l IH]; intros J Hlen Hnd Hin Hlo Hhi.
  - by apply elem_of_nil in Hin.
  - simpl. set (J1 := BAND_COL_ELEM_set J i0 j (v i0)).
    assert (Hlen1 : length (data J1) = length (data J))
      by (unfold J1, BAND_COL_ELEM_set, set_band_col; simpl; apply length_wr).
    assert (Hcol1 : band_col J1 j = wr (band_col J j) (smu J + (i0 - j)) (v i0))
      by (unfold J1, BAND_COL_ELEM_set; by rewrite band_col_set_eq).
    apply NoDup_cons in Hnd as [Hnotin Hnd].
    destruct (decide (i = i0)) as [->|Hne].
    + rewrite fold_elem_set_other; [|done|lia|].
      * rewrite Hcol1. by apply rd_wr_eq.
      * intros i' Hi'. change (smu J1) with (smu J).
        intros Heq. assert (i' = i0) by lia. by subst.
    + apply elem_of_cons in Hin as [?|Hin]; [done|].
      change (smu J) with (smu J1). apply IH; try done; try lia.
      rewrite Hcol1, length_wr. done.
Qed.

(** The innermost loop of KBBDDQJac on column j. *)
Lemma load_col_frame J inc_inv gt gu j i1 i2 :
  0 ≤ j → (Z.to_nat j < length (data J))%nat →
  let J' := load_col J inc_inv gt gu j i1 i2 in
  size J' = size J ∧ bmu J' = bmu J ∧ bml J' = bml J ∧ smu J' = smu J ∧
  length (data J') = length (data J) ∧
  (∀ j', j ≠ j' → band_col J' j' = band_col J j') ∧
  length (band_col J' j) = length (band_col J j).
Proof. intros. by apply fold_elem_set_frame. Qed.

Lemma load_col_written J inc_inv gt gu j i1 i2 i :
  0 ≤ j → (Z.to_nat j < length (data J))%nat →
  i1 ≤ i ≤ i2 →
  0 ≤ smu J + (i - j) →
  (Z.to_nat (smu J + (i - j)) < length (band_col J j))%nat →
  rd ZERO (band_col (load_col J inc_inv gt gu j i1 i2) j) (smu J + (i - j))
  = rmul inc_inv (rsub (rd ZERO gt i) (rd ZERO gu i)).
Proof.
  intros. unfold load_col.
  apply (fold_elem_set_written
           (λ i, rmul inc_inv (rsub (rd ZERO gt i) (rd ZERO gu i)))); try done.
  - apply NoDup_seqZ.
  - apply elem_of_seqZ. lia.
Qed.

Lemma load_col_other J inc_inv gt gu j i1 i2 k :
  0 ≤ j → (Z.to_nat j < length (data J))%nat →
  ¬ (i1 ≤ k - smu J + j ≤ i2) →
  rd ZERO (band_col (load_col J inc_inv gt gu j i1 i2) j) k
  = rd ZERO (band_col J j) k.
Proof.
  intros ?? Hk. unfold load_col.
  apply (fold_elem_set_other
           (λ i, rmul inc_inv (rsub (rd ZERO gt i) (rd ZERO gu i)))); try done.
  intros i Hi%elem_of_seqZ Heq. apply Hk. lia.
Qed.

End BandFacts.

(** ** The two inner loops of KBBDDQJac *)

Section InnerLoops.

Context {R : Type} {RA : RealArith R} {fdata : Type}.
Implicit Types (ut udata uscdata gt gu : N_Vector (R := R)) (l : list Z).
Implicit Types (J : BandMat (R := R)) (pdata : @KBBDDataRec R fdata).

Lemma fold_perturb_length rel udata uscdata l ut :
  length (fold_left (perturb rel udata uscdata) l ut) = length ut.
Proof.
  revert ut. induction l as [|j l IH]; intros ut; simpl; [done|].
  rewrite IH. apply length_wr.
Qed.

Lemma fold_perturb_other rel udata uscdata l ut j :
  j ∉ l →
  rd ZERO (fold_left (perturb rel udata uscdata) l ut) j = rd ZERO ut j.
Proof.
  revert ut. induction l as [|j0 l IH]; intros ut Hj; simpl; [done|].
  apply not_elem_of_cons in Hj as [Hne Hj].
  rewrite IH by done. unfold perturb. by apply rd_wr_ne.
Qed.

Lemma fold_perturb_in rel udata uscdata l ut j :
  NoDup l → j ∈ l → 0 ≤ j → (Z.to_nat j < length ut)%nat →
  rd ZERO (fold_left (perturb rel udata uscdata) l ut) j
  = radd (rd ZERO ut j) (dq_inc rel udata uscdata j).
Proof.
  revert ut. induction l as [|j0 l IH]; intros ut Hnd Hin Hj Hlen.
  - by apply elem_of_nil in Hin.
  - simpl. apply NoDup_cons in Hnd as [Hnotin Hnd].
    destruct (decide (j = j0)) as [->|Hne].
    + rewrite fold_perturb_other by done. unfold perturb. by apply rd_wr_eq.
    + apply elem_of_cons in Hin as [?|Hin]; [done|].
      rewrite IH; try done.
      * unfold perturb at 1. by rewrite rd_wr_ne.
      * unfold perturb. by rewrite length_wr.
Qed.

(** The second loop works on utemp and on J independently. *)
Lemma fold_restore_load_split pdata N udata uscdata gu gt l ut J :
  fold_left (restore_load pdata N udata uscdata gu gt) l (ut, J)
  = (fold_left (λ ut j, wr ut j (rd ZERO udata j)) l ut,
     fold_left
       (λ J j, load_col J (rdiv ONE (dq_inc (rel_uu pdata) udata uscdata j))
                 gt gu j (Z.max 0 (j - mu pdata))
                 (Z.min (j + ml pdata) (N - 1)))
       l J).
Proof.
  revert ut J. induction l as [|j l IH]; intros ut J; simpl; [done|].
  by rewrite IH.
Qed.

Lemma fold_restore_length udata l ut :
  length (fold_left (λ ut j, wr ut j (rd ZERO udata j)) l ut) = length ut.
Proof.
  revert ut. induction l as [|j l IH]; intros ut; simpl; [done|].
  rewrite IH. apply length_wr.
Qed.

Lemma fold_restore_other udata l ut j :
  j ∉ l →
  rd ZERO (fold_left (λ ut j, wr ut j (rd ZERO udata j)) l ut) j = rd ZERO ut j.
Proof.
  revert ut. induction l as [|j0 l IH]; intros ut Hj; simpl; [done|].
  apply not_elem_of_cons in Hj as [Hne Hj].
  rewrite IH by done. by apply rd_wr_ne.
Qed.

Lemma fold_restore_in udata l ut j :
  j ∈ l → 0 ≤ j → (Z.to_nat j < length ut)%nat →
  rd ZERO (fold_left (λ ut j, wr ut j (rd ZERO udata j)) l ut) j
  = rd ZERO udata j.
Proof.
  revert ut. induction l as [|j0 l IH]; intros ut Hin Hj Hlen.
  - by apply elem_of_nil in Hin.
  - simpl. destruct (decide (j ∈ l)) as [Hl|Hl].
    + apply IH; try done. by rewrite length_wr.
    + rewrite fold_restore_other by done.
      apply elem_of_cons in Hin as [->|?]; [|done]. by apply rd_wr_eq.
Qed.

(** Loading the columns of a list [l]: the matrix keeps its dimensions and
    the columns outside [l]. *)
Lemma fold_load_frame (c : Z → R) (lo hi : Z → Z) gt gu l J :
  (∀ j, j ∈ l → 0 ≤ j ∧ (Z.to_nat j < length (data J))%nat) →
  let J' := fold_left (λ J j, load_col J (c j) gt gu j (lo j) (hi j)) l J in
  size J' = size J ∧ bmu J' = bmu J ∧ bml J' = bml J ∧ smu J' = smu J ∧
  length (data J') = length (data J) ∧
  (∀ j, j ∉ l → band_col J' j = band_col J j) ∧
  (∀ j, length (band_col J' j) = length (band_col J j)).
Proof.
  revert J. induction l as [|j0 l IH]; intros J Hl; simpl; [done|].
  destruct (Hl j0) as [Hj0 Hlen0]; [by left|].
  destruct (load_col_frame J (c j0) gt gu j0 (lo j0) (hi j0))
    as (H1 & H2 & H3 & H4 & H5 & H6 & H7); try done.
  destruct (IH (load_col J (c j0) gt gu j0 (lo j0) (hi j0)))
    as (K1 & K2 & K3 & K4 & K5 & K6 & K7).
  { intros j Hj. rewrite H5. apply Hl. by right. }
  rewrite K1, K2, K3, K4, K5. repeat split; try done.
  - intros j [Hne Hj]%not_elem_of_cons. rewrite K6 by done. by apply H6.
  - intros j. rewrite K7. destruct (decide (j0 = j)) as [<-|Hne]; [done|].
    by rewrite H6.
Qed.

(** Loading the columns of a list [l] without repetition: a column of [l]
    holds the quotients in its row range and its old values elsewhere. *)
Lemma fold_load_written (c : Z → R) (lo hi : Z → Z) gt gu l J j i :
  (∀ j, j ∈ l → 0 ≤ j ∧ (Z.to_nat j < length (data J))%nat) →
  NoDup l → j ∈ l → lo j ≤ i ≤ hi j →
  0 ≤ smu J + (i - j) →
  (Z.to_nat (smu J + (i - j)) < length (band_col J j))%nat →
  rd ZERO
    (band_col (fold_left (λ J j, load_col J (c j) gt gu j (lo j) (hi j)) l J) j)
    (smu J + (i - j))
  = rmul (c j) (rsub (rd ZERO gt i) (rd ZERO gu i)).
Proof.
  revert J. induction l as [|j0 l IH]; intros J Hl Hnd Hin Hi Hlo Hhi.
  - by apply elem_of_nil in Hin.
  - simpl. apply NoDup_cons in Hnd as [Hnotin Hnd].
    destruct (Hl j0) as [Hj0 Hlen0]; [by left|].
    destruct (load_col_frame J (c j0) gt gu j0 (lo j0) (hi j0))
      as (H1 & H2 & H3 & H4 & H5 & H6 & H7); try done.
    assert (Hl' : ∀ j, j ∈ l → 0 ≤ j ∧
      (Z.to_nat j < length (data (load_col J (c j0) gt gu j0 (lo j0) (hi j0))))%nat).
    { intros j' Hj'. rewrite H5. apply Hl. by right. }
    destruct (decide (j = j0)) as [->|Hne].
    + destruct (fold_load_frame c lo hi gt gu l
                  (load_col J (c j0) gt gu j0 (lo j0) (hi j0)) Hl')
        as (_ & _ & _ & _ & _ & K6 & _).
      rewrite K6 by done. by apply load_col_written.
    + apply elem_of_cons in Hin as [?|Hin]; [done|].
      rewrite <- H4. apply IH; try done.
      * by rewrite H4.
      * rewrite H4, H6 by done. done.
Qed.

Lemma fold_load_other (c : Z → R) (lo hi : Z → Z) gt gu l J j k :
  (∀ j, j ∈ l → 0 ≤ j ∧ (Z.to_nat j < length (data J))%nat) →
  ¬ (lo j ≤ k - smu J + j ≤ hi j) →
  rd ZERO
    (band_col (fold_left (λ J j, load_col J (c j) gt gu j (lo j) (hi j)) l J) j)
    k
  = rd ZERO (band_col J j) k.
Proof.
  revert J. induction l as [|j0 l IH]; intros J Hl Hk; simpl; [done|].
  destruct (Hl j0) as [Hj0 Hlen0]; [by left|].
  destruct (load_col_frame J (c j0) gt gu j0 (lo j0) (hi j0))
    as (H1 & H2 & H3 & H4 & H5 & H6 & H7); try done.
  rewrite IH.
  - destruct (decide (j0 = j)) as [->|Hne].
    + by apply load_col_other.
    + by rewrite H6.
  - intros j' Hj'. rewrite H5. apply Hl. by right.
  - by rewrite H4.
Qed.

End InnerLoops.

(** ** The loop over groups *)

Section GroupLoopPrelude.

Context {R : Type} {RA : RealArith R}.

Lemma rd_N_VScale c (x : N_Vector (R := R)) j :
  0 ≤ j → (Z.to_nat j < length x)%nat →
  rd ZERO (N_VScale c x) j = rmul c (rd ZERO x j).
Proof.
  intros Hj Hlen. unfold rd, N_VScale. rewrite !decide_True by done.
  change (map (rmul c) x) with (rmul c <$> x). rewrite list_lookup_fmap.
  destruct (lookup_lt_is_Some_2 x (Z.to_nat j) Hlen) as [y ->]. done.
Qed.

Lemma group_cols_spec (width Nlocal : Z) (g : nat) j :
  Z.of_nat g < width →
  j ∈ group_cols (Z.of_nat g + 1) width Nlocal ↔
  0 ≤ j < Nlocal ∧ j mod width = Z.of_nat g.
Proof.
  intros Hg. rewrite elem_of_group_cols by lia.
  replace (Z.of_nat g + 1 - 1) with (Z.of_nat g) by lia. done.
Qed.

End GroupLoopPrelude.

Section GroupLoop.

Context {R : Type} {RA : RealArith R} {fdata : Type}.
Variables (pdata : @KBBDDataRec R fdata) (Nlocal : Z) (J0 : BandMat (R := R)).
Variables (uu uscale : N_Vector (R := R)).

Let width := ml pdata + mu pdata + 1.

Hypothesis Hwidth : 1 ≤ width.
Hypothesis Huu : length uu = Z.to_nat Nlocal.
Hypothesis Hcolumns : length (data J0) = Z.to_nat Nlocal.
Hypothesis Hheight : ∀ j i, 0 ≤ j < Nlocal →
  Z.max 0 (j - mu pdata) ≤ i ≤ Z.min (j + ml pdata) (Nlocal - 1) →
  0 ≤ smu J0 + (i - j) ∧
  (Z.to_nat (smu J0 + (i - j)) < length (band_col J0 j))%nat.

Lemma dq_base_inv gu gtemp utemp ud :
  dq_inv pdata Nlocal uu uscale (G_base Nlocal pdata uu ud) 0
    (dq_base Nlocal J0 pdata uu uscale gu gtemp utemp ud).
Proof using Hwidth Huu.
  clear Hcolumns Hheight.
  unfold dq_base, G_base.
  destruct (gloc pdata Nlocal uu (gcomm pdata Nlocal uu ud)) as [gu0 ud2].
  split; simpl; try done.
  - intros h Hh. lia.
  - unfold N_VScale. apply length_map.
  - intros j Hj. rewrite decide_False.
    + apply rd_N_VScale; lia.
    + pose proof (Z.mod_pos_bound j width ltac:(lia)). fold width. lia.
Qed.

Lemma dq_base_J_inv gu gtemp utemp ud :
  dq_J_inv pdata Nlocal J0 uu uscale (G_base Nlocal pdata uu ud) 0
    (dq_base Nlocal J0 pdata uu uscale gu gtemp utemp ud).
Proof using Hwidth.
  clear Huu Hcolumns Hheight.
  unfold dq_base, G_base.
  destruct (gloc pdata Nlocal uu (gcomm pdata Nlocal uu ud)) as [gu0 ud2].
  split; simpl; try done.
  intros j i Hj Hg. exfalso.
  pose proof (Z.mod_pos_bound j width ltac:(lia)). fold width in Hg. lia.
Qed.

Lemma dq_group_inv gu0 (g : nat) m :
  Z.of_nat g < width → Z.of_nat g < Nlocal →
  dq_inv pdata Nlocal uu uscale gu0 g m →
  dq_inv pdata Nlocal uu uscale gu0 (S g)
    (dq_group pdata Nlocal width m (Z.of_nat g + 1)).
Proof using Hwidth Huu.
  clear Hcolumns Hheight.
  intros Hgw HgN Hinv. destruct Hinv.
  pose proof (λ j, group_cols_spec width Nlocal g j Hgw) as Hcols.
  pose proof (NoDup_group_cols (Z.of_nat g + 1) width Nlocal Hwidth) as Hnd.
  unfold dq_group. rewrite inv_uu0, inv_uscale0, inv_gu0.
  set (cols := group_cols (Z.of_nat g + 1) width Nlocal) in *.
  set (utemp_p := fold_left (perturb (rel_uu pdata) uu uscale) cols (dq_utemp m)).
  assert (Hp_len : length utemp_p = length uu)
    by (unfold utemp_p; by rewrite fold_perturb_length).
  assert (Hp : ∀ j, 0 ≤ j < Nlocal →
    rd ZERO utemp_p j
    = group_input (rel_uu pdata) width uu uscale (Z.of_nat g + 1) j).
  { intros j Hj. unfold group_input, utemp_p.
    replace (Z.of_nat g + 1 - 1) with (Z.of_nat g) by lia.
    destruct (decide (j mod width = Z.of_nat g)) as [Heq|Hne].
    - rewrite fold_perturb_in; try done; try lia.
      + rewrite inv_utemp0 by done. fold width. rewrite decide_False by lia. done.
      + by apply Hcols.
    - rewrite fold_perturb_other by (rewrite Hcols; tauto).
      rewrite inv_utemp0 by done. done. }
  destruct (gloc pdata Nlocal utemp_p (dq_ud m)) as [gtemp ud'].
  rewrite fold_restore_load_split.
  split; simpl.
  - done.
  - done.
  - done.
  - rewrite length_app, inv_calls_length0. simpl. lia.
  - unfold num_gloc_calls in *. rewrite List.filter_app, length_app.
    rewrite inv_gloc_count0. simpl. lia.
  - rewrite lookup_app_l by (rewrite inv_calls_length0; lia). done.
  - rewrite lookup_app_l by (rewrite inv_calls_length0; lia). done.
  - intros h Hh. destruct (decide (h = g)) as [->|Hne].
    + exists utemp_p, gtemp. split; [|done].
      rewrite lookup_app_r by (rewrite inv_calls_length0; lia).
      rewrite inv_calls_length0. by rewrite Nat.sub_diag.
    + destruct (inv_call_group0 h) as (u & gout & Hl & Hu); [lia|].
      exists u, gout. split; [|done].
      rewrite lookup_app_l by (rewrite inv_calls_length0; lia). done.
  - by rewrite fold_restore_length.
  - intros j Hj. destruct (decide (j mod width = Z.of_nat g)) as [Heq|Hne].
    + rewrite fold_restore_in; try lia.
      * fold width. rewrite decide_True by lia. done.
      * by apply Hcols.
    + rewrite fold_restore_other by (rewrite Hcols; tauto).
      rewrite Hp by done. unfold group_input. fold width.
      replace (Z.of_nat g + 1 - 1) with (Z.of_nat g) by lia.
      rewrite decide_False by done.
      destruct (decide (j mod width < Z.of_nat g)).
      * rewrite decide_True by lia. done.
      * rewrite decide_False by lia. done.
Qed.

Lemma dq_group_J_inv gu0 (g : nat) m :
  Z.of_nat g < width → Z.of_nat g < Nlocal →
  dq_inv pdata Nlocal uu uscale gu0 g m →
  dq_J_inv pdata Nlocal J0 uu uscale gu0 g m →
  dq_J_inv pdata Nlocal J0 uu uscale gu0 (S g)
    (dq_group pdata Nlocal width m (Z.of_nat g + 1)).
Proof using Hwidth Hcolumns Hheight.
  clear Huu.
  intros Hgw HgN Hinv HJ. destruct Hinv, HJ.
  pose proof (λ j, group_cols_spec width Nlocal g j Hgw) as Hcols.
  pose proof (NoDup_group_cols (Z.of_nat g + 1) width Nlocal Hwidth) as Hnd.
  unfold dq_group. rewrite inv_uu0, inv_uscale0, inv_gu0.
  set (cols := group_cols (Z.of_nat g + 1) width Nlocal) in *.
  set (utemp_p := fold_left (perturb (rel_uu pdata) uu uscale) cols (dq_utemp m)).
  destruct (gloc pdata Nlocal utemp_p (dq_ud m)) as [gtemp ud'].
  rewrite fold_restore_load_split.
  assert (Hin_range : ∀ j, j ∈ cols →
            0 ≤ j ∧ (Z.to_nat j < length (data (dq_J m)))%nat).
  { intros j Hj%Hcols. rewrite inv_J_columns0, Hcolumns. lia. }
  destruct (fold_load_frame
              (λ j, rdiv ONE (dq_inc (rel_uu pdata) uu uscale j))
              (λ j, Z.max 0 (j - mu pdata))
              (λ j, Z.min (j + ml pdata) (Nlocal - 1))
              gtemp gu0 cols (dq_J m) Hin_range)
    as (K1 & K2 & K3 & K4 & K5 & K6 & K7).
  split; simpl.
  - by rewrite K1.
  - by rewrite K2.
  - by rewrite K3.
  - by rewrite K4.
  - by rewrite K5.
  - intros j. by rewrite K7.
  - intros j k Hj Hk. fold width in Hk.
    destruct (decide (j mod width = Z.of_nat g)) as [Heq|Hne].
    + rewrite fold_load_other; try done.
      * apply inv_J_old0; [done|]. fold width. lia.
      * rewrite inv_J_smu0. lia.
    + rewrite K6 by (rewrite Hcols; tauto).
      apply inv_J_old0; [done|]. fold width. lia.
  - intros j i Hj Hg Hi. fold width in Hg. fold width.
    destruct (decide (j mod width = Z.of_nat g)) as [Heq|Hne].
    + unfold BAND_COL_ELEM. rewrite K4.
      destruct (Hheight j i Hj Hi) as [Hlo Hhi].
      rewrite fold_load_written; try done.
      * unfold nth_call. rewrite lookup_app_r by (rewrite inv_calls_length0; lia).
        rewrite inv_calls_length0, Heq.
        replace (Z.to_nat (Z.of_nat g) + 2 - (g + 2))%nat with 0%nat by lia.
        done.
      * by apply Hcols.
      * rewrite inv_J_smu0. done.
      * rewrite inv_J_smu0, inv_J_height0. done.
    + unfold BAND_COL_ELEM. rewrite K4, K6 by (rewrite Hcols; tauto).
      pose proof (Z.mod_pos_bound j width ltac:(lia)).
      unfold nth_call.
      rewrite lookup_app_l by (rewrite inv_calls_length0; lia).
      apply (inv_J_new0 j i); try done. fold width. lia.
Qed.

(** The invariants after the groups 1 .. n, for n up to ngroups. *)
Lemma dq_groups_inv gu gtemp utemp ud (n : nat) :
  Z.of_nat n ≤ Z.min width Nlocal →
  dq_inv pdata Nlocal uu uscale (G_base Nlocal pdata uu ud) n
    (fold_left (dq_group pdata Nlocal width) (seqZ 1 (Z.of_nat n))
       (dq_base Nlocal J0 pdata uu uscale gu gtemp utemp ud)).
Proof using Hwidth Huu.
  clear Hcolumns Hheight.
  induction n as [|n IH]; intros Hn.
  - rewrite seqZ_nil by lia. apply dq_base_inv.
  - rewrite seqZ_S, fold_left_app. simpl.
    rewrite Z.add_comm. apply dq_group_inv; [lia | lia |]. apply IH. lia.
Qed.

Lemma dq_groups_J_inv gu gtemp utemp ud (n : nat) :
  Z.of_nat n ≤ Z.min width Nlocal →
  dq_J_inv pdata Nlocal J0 uu uscale (G_base Nlocal pdata uu ud) n
    (fold_left (dq_group pdata Nlocal width) (seqZ 1 (Z.of_nat n))
       (dq_base Nlocal J0 pdata uu uscale gu gtemp utemp ud)).
Proof using Hwidth Huu Hcolumns Hheight.
  induction n as [|n IH]; intros Hn.
  - rewrite seqZ_nil by lia. apply dq_base_J_inv.
  - rewrite seqZ_S, fold_left_app. simpl.
    rewrite Z.add_comm. apply dq_group_J_inv; [lia | lia | |].
    + apply dq_groups_inv. lia.
    + apply IH. lia.
Qed.

(** KBBDDQJac ends in the state described by the invariants for all the
    groups. *)
Lemma KBBDDQJac_inv gu gtemp utemp ud :
  dq_inv pdata Nlocal uu uscale (G_base Nlocal pdata uu ud)
    (Z.to_nat (Z.min width Nlocal))
    (KBBDDQJac Nlocal J0 pdata uu uscale gu gtemp utemp ud).
Proof using Hwidth Huu.
  clear Hcolumns Hheight.
  unfold KBBDDQJac. fold width.
  destruct (decide (0 ≤ Z.min width Nlocal)) as [Hpos|Hneg].
  - rewrite <- (Z2Nat.id (Z.min width Nlocal)) at 2 by done.
    apply dq_groups_inv. lia.
  - rewrite seqZ_nil by lia.
    replace (Z.to_nat (Z.min width Nlocal)) with 0%nat by lia.
    apply dq_base_inv.
Qed.

Lemma KBBDDQJac_J_inv gu gtemp utemp ud :
  dq_J_inv pdata Nlocal J0 uu uscale (G_base Nlocal pdata uu ud)
    (Z.to_nat (Z.min width Nlocal))
    (KBBDDQJac Nlocal J0 pdata uu uscale gu gtemp utemp ud).
Proof using Hwidth Huu Hcolumns Hheight.
  unfold KBBDDQJac. fold width.
  destruct (decide (0 ≤ Z.min width Nlocal)) as [Hpos|Hneg].
  - rewrite <- (Z2Nat.id (Z.min width Nlocal)) at 2 by done.
    apply dq_groups_J_inv. lia.
  - rewrite seqZ_nil by lia.
    replace (Z.to_nat (Z.min width Nlocal)) with 0%nat by lia.
    apply dq_base_J_inv.
Qed.

End GroupLoop.

(** ** KBBDDQJac: what holds for any input *)

Section BuilderFacts.

Context {R : Type} {RA : RealArith R} {fdata : Type}.
Implicit Types (J : BandMat (R := R)) (pdata : @KBBDDataRec R fdata).
Implicit Types (m : @dq_mem R fdata).

Lemma map_zero_wr (c : list R) k x :
  map (λ _, ZERO) (wr c k x) = map (λ _ : R, ZERO) c.
Proof.
  change (((λ _, ZERO) <$> wr c k x) = ((λ _ : R, ZERO) <$> c)).
  rewrite !(const_fmap _ _ ZERO) by done. by rewrite length_wr.
Qed.

Lemma BandZero_elem_set J i j x :
  BandZero (BAND_COL_ELEM_set J i j x) = BandZero J.
Proof.
  unfold BandZero, BAND_COL_ELEM_set, set_band_col; simpl. f_equal.
  unfold wr at 1. case_decide as Hj; [|done].
  change (map (map (λ _ : R, ZERO))) with (fmap (M := list) (map (λ _ : R, ZERO))).
  rewrite list_fmap_insert.
  destruct (data J !! Z.to_nat j) as [c|] eqn:Hc.
  - apply list_insert_id. rewrite list_lookup_fmap, Hc. simpl.
    f_equal. rewrite map_zero_wr. unfold band_col, rd.
    rewrite decide_True by done. by rewrite Hc.
  - apply list_insert_ge. rewrite length_fmap. by apply lookup_ge_None.
Qed.

Lemma BandZero_load_col J c gt gu j i1 i2 :
  BandZero (load_col J c gt gu j i1 i2) = BandZero J.
Proof.
  unfold load_col. generalize (seqZ i1 (i2 - i1 + 1)). intros l.
  revert J. induction l as [|i l IH]; intros J; simpl; [done|].
  by rewrite IH, BandZero_elem_set.
Qed.

Lemma BandZero_idemp J : BandZero (BandZero J) = BandZero J.
Proof.
  unfold BandZero; simpl. f_equal. rewrite map_map.
  apply map_ext. intros c. by rewrite map_map.
Qed.

(** What a group leaves as it is, and the one call of gloc it adds. *)
Lemma dq_group_frame pdata N w m group :
  let m' := dq_group pdata N w m group in
  dq_uu m' = dq_uu m ∧ dq_uscale m' = dq_uscale m ∧ dq_gu m' = dq_gu m ∧
  BandZero (dq_J m') = BandZero (dq_J m) ∧
  ∃ u g, dq_calls m' = dq_calls m ++ [call_gloc u g].
Proof.
  unfold dq_group.
  destruct (gloc pdata N _ (dq_ud m)) as [gtemp ud'].
  rewrite fold_restore_load_split. simpl. repeat split; try done.
  - generalize (group_cols group w N). intros l.
    generalize (dq_J m). induction l as [|j l IH]; intros J; simpl; [done|].
    by rewrite IH, BandZero_load_col.
  - eauto.
Qed.

Lemma filter_is_gloc (rest : list (@callback R)) :
  Forall (λ c, is_gloc c = true) rest → List.filter is_gloc rest = rest.
Proof.
  induction 1 as [|c rest Hc _ IH]; simpl; [done|]. by rewrite Hc, IH.
Qed.

Lemma dq_groups_frame pdata N w (l : list Z) m :
  let m' := fold_left (dq_group pdata N w) l m in
  dq_uu m' = dq_uu m ∧ dq_uscale m' = dq_uscale m ∧ dq_gu m' = dq_gu m ∧
  BandZero (dq_J m') = BandZero (dq_J m) ∧
  ∃ rest, dq_calls m' = dq_calls m ++ rest ∧ length rest = length l ∧
          Forall (λ c, is_gloc c = true) rest.
Proof.
  revert m. induction l as [|g l IH]; intros m; simpl.
  - repeat split; try done. exists []. by rewrite app_nil_r.
  - destruct (IH (dq_group pdata N w m g)) as (H1 & H2 & H3 & H4 & rest & H5 & H6 & H7).
    destruct (dq_group_frame pdata N w m g) as (K1 & K2 & K3 & K4 & u & gt & K5).
    rewrite H1, H2, H3, H4, H5, K1, K2, K3, K4, K5. repeat split; try done.
    exists (call_gloc u gt :: rest). rewrite <- app_assoc. simpl.
    repeat split; [by rewrite H6 | by constructor].
Qed.

(** KBBDDQJac writes neither uu nor uscale and keeps the dimensions of J.
    It calls gcomm once, then gloc on uu for the base value, then gloc once
    for each group, and no other callback. *)
Lemma KBBDDQJac_frame N J pdata uu uscale gu gtemp utemp ud :
  let m := KBBDDQJac N J pdata uu uscale gu gtemp utemp ud in
  dq_uu m = uu ∧ dq_uscale m = uscale ∧
  dq_gu m = G_base N pdata uu ud ∧
  BandZero (dq_J m) = BandZero J ∧
  (∃ rest,
     dq_calls m = call_gcomm uu :: call_gloc uu (G_base N pdata uu ud) :: rest ∧
     length rest = Z.to_nat (Z.min (ml pdata + mu pdata + 1) N) ∧
     Forall (λ c, is_gloc c = true) rest) ∧
  num_gloc_calls (dq_calls m)
  = S (Z.to_nat (Z.min (ml pdata + mu pdata + 1) N)).
Proof.
  unfold KBBDDQJac.
  destruct (dq_groups_frame pdata N (ml pdata + mu pdata + 1)
              (seqZ 1 (Z.min (ml pdata + mu pdata + 1) N))
              (dq_base N J pdata uu uscale gu gtemp utemp ud))
    as (H1 & H2 & H3 & H4 & rest & H5 & H6 & H7).
  simpl in *. rewrite H1, H2, H3, H4, H5. unfold dq_base, G_base.
  destruct (gloc pdata N uu (gcomm pdata N uu ud)) as [gu0 ud2]; simpl.
  rewrite length_seqZ in H6. repeat split; try done.
  - by exists rest.
  - unfold num_gloc_calls. simpl. by rewrite filter_is_gloc, H6.
Qed.

(** A group does not read gtemp. *)
Lemma dq_group_gtemp pdata N w J uu uscale gu gt gt' ut ud calls group :
  dq_group pdata N w (mkDq J uu uscale gu gt ut ud calls) group
  = dq_group pdata N w (mkDq J uu uscale gu gt' ut ud calls) group.
Proof. reflexivity. Qed.

(** The previous contents of the work vectors gu, gtemp and utemp have no
    influence on what KBBDDQJac computes; only gtemp keeps its contents
    when there is no group. *)
Lemma KBBDDQJac_work_vectors N J pdata uu uscale gu gt ut gu' gt' ut' ud :
  let m := KBBDDQJac N J pdata uu uscale gu gt ut ud in
  let m' := KBBDDQJac N J pdata uu uscale gu' gt' ut' ud in
  dq_J m = dq_J m' ∧ dq_gu m = dq_gu m' ∧ dq_utemp m = dq_utemp m' ∧
  dq_ud m = dq_ud m' ∧ dq_calls m = dq_calls m' ∧
  (1 ≤ Z.min (ml pdata + mu pdata + 1) N → dq_gtemp m = dq_gtemp m').
Proof.
  unfold KBBDDQJac, dq_base.
  destruct (gloc pdata N uu (gcomm pdata N uu ud)) as [gu0 ud2].
  destruct (decide (1 ≤ Z.min (ml pdata + mu pdata + 1) N)) as [Hg|Hg].
  - rewrite seqZ_cons by lia. simpl.
    rewrite (dq_group_gtemp _ _ _ _ _ _ _ gt gt'). done.
  - rewrite seqZ_nil by lia. simpl. repeat split; try done.
Qed.

(** Every call of gloc in the record carries the output gloc gave for the
    recorded input. *)
Lemma dq_group_calls_sound pdata Nlocal width m group :
  (∀ k u gout, dq_calls m !! k = Some (call_gloc u gout) →
     ∃ ud', gout = (gloc pdata Nlocal u ud').1) →
  ∀ k u gout,
    dq_calls (dq_group pdata Nlocal width m group) !! k
    = Some (call_gloc u gout) →
    ∃ ud', gout = (gloc pdata Nlocal u ud').1.
Proof.
  intros Hm k u gout. unfold dq_group.
  destruct (gloc pdata Nlocal _ (dq_ud m)) as [gtemp ud1] eqn:Hg.
  destruct (fold_left _ _ (_, dq_J m)) as [utemp' J]. simpl.
  intros Hk. apply lookup_app_Some in Hk as [Hk|[_ Hk]]; [by eapply Hm|].
  apply list_lookup_singleton_Some in Hk as [_ [= <- <-]].
  eexists. by rewrite Hg.
Qed.

Lemma KBBDDQJac_calls_sound Nlocal J pdata uu uscale gu gtemp utemp ud :
  ∀ k u gout,
    dq_calls (KBBDDQJac Nlocal J pdata uu uscale gu gtemp utemp ud) !! k
    = Some (call_gloc u gout) →
    ∃ ud', gout = (gloc pdata Nlocal u ud').1.
Proof.
  unfold KBBDDQJac.
  generalize (seqZ 1 (Z.min (ml pdata + mu pdata + 1) Nlocal)).
  assert (Hbase : ∀ k u gout,
    dq_calls (dq_base Nlocal J pdata uu uscale gu gtemp utemp ud) !! k
    = Some (call_gloc u gout) → ∃ ud', gout = (gloc pdata Nlocal u ud').1).
  { unfold dq_base.
    destruct (gloc pdata Nlocal uu _) as [gu0 ud2] eqn:Hg. simpl.
    intros [|[|k]] u gout; simpl; [done | | done].
    intros [= <- <-]. eexists. by rewrite Hg. }
  revert Hbase.
  generalize (dq_base Nlocal J pdata uu uscale gu gtemp utemp ud).
  intros m Hm l. revert m Hm. induction l as [|g l IH]; intros m Hm; [done|].
  simpl. apply IH. by apply dq_group_calls_sound.
Qed.

(** The call of gloc made for a group leaves its output in gtemp. *)
Lemma dq_group_last_call pdata N w m group :
  ∃ u, dq_calls (dq_group pdata N w m group)
       = dq_calls m ++ [call_gloc u (dq_gtemp (dq_group pdata N w m group))].
Proof.
  unfold dq_group. destruct (gloc pdata N _ (dq_ud m)) as [gt ud1].
  destruct (fold_left _ _ (_, dq_J m)) as [ut J]. simpl. by eexists.
Qed.

(** When KBBDDQJac returns, gtemp holds the output of the last call of
    gloc if there was a group, and what it held on entry if there was
    none. *)
Lemma KBBDDQJac_gtemp N J pdata uu uscale gu gtemp utemp ud :
  let m := KBBDDQJac N J pdata uu uscale gu gtemp utemp ud in
  (1 ≤ Z.min (ml pdata + mu pdata + 1) N →
   ∃ u, last (dq_calls m) = Some (call_gloc u (dq_gtemp m))) ∧
  (Z.min (ml pdata + mu pdata + 1) N ≤ 0 → dq_gtemp m = gtemp).
Proof.
  unfold KBBDDQJac. split.
  - intros Hg. set (n := Z.min (ml pdata + mu pdata + 1) N) in *.
    replace n with ((n - 1) + 1) by lia.
    rewrite seqZ_app, fold_left_app by lia.
    rewrite seqZ_cons, seqZ_nil by lia. cbn [fold_left].
    destruct (dq_group_last_call pdata N (ml pdata + mu pdata + 1)
                (fold_left (dq_group pdata N (ml pdata + mu pdata + 1))
                   (seqZ 1 (n - 1))
                   (dq_base N J pdata uu uscale gu gtemp utemp ud))
                (1 + (n - 1))) as [u Hu].
    exists u. rewrite Hu. apply last_snoc.
  - intros Hg. rewrite seqZ_nil by lia. simpl. unfold dq_base.
    by destruct (gloc pdata N uu (gcomm pdata N uu ud)).
Qed.

End BuilderFacts.

(** ** The claims about the difference quotient builder *)

Section BuilderClaims.

Context {R : Type} {RA : RealArith R} {fdata : Type} {BS : BandSolver (R := R)}.
Implicit Types (J : BandMat (R := R)) (pdata : @KBBDDataRec R fdata).

Lemma rd_ext (d : R) (a b : list R) :
  length a = length b →
  (∀ j, 0 ≤ j → (Z.to_nat j < length a)%nat → rd d a j = rd d b j) →
  a = b.
Proof.
  intros Hlen Hrd. apply list_eq. intros i.
  destruct (decide (i < length a)%nat) as [Hi|Hi].
  - destruct (lookup_lt_is_Some_2 a i Hi) as [x Hx].
    destruct (lookup_lt_is_Some_2 b i ltac:(lia)) as [y Hy].
    specialize (Hrd (Z.of_nat i) ltac:(lia) ltac:(lia)).
    unfold rd in Hrd. rewrite !decide_True, Nat2Z.id, Hx, Hy in Hrd by lia.
    simpl in Hrd. by rewrite Hx, Hy, Hrd.
  - rewrite !lookup_ge_None_2 by lia. done.
Qed.

Lemma band_shape_BandZero n mu_ ml_ su J :
  band_shape n mu_ ml_ su J → band_shape n mu_ ml_ su (BandZero J).
Proof.
  intros (H1 & H2 & H3 & H4 & H5 & H6). unfold band_shape, BandZero; simpl.
  repeat split; try done.
  - by rewrite length_map.
  - apply Forall_forall. intros c Hc.
    apply list_elem_of_In, in_map_iff in Hc as (c0 & <- & Hc0).
    rewrite length_map. rewrite Forall_forall in H6. apply H6.
    by apply list_elem_of_In.
Qed.

(** In a matrix allocated with storage upper bandwidth mu + ml, the
    elements of the band of every column are inside the column. *)
Lemma band_shape_height n mu_ ml_ J j i :
  0 ≤ mu_ → 0 ≤ ml_ →
  band_shape n mu_ ml_ (mu_ + ml_) J →
  0 ≤ j < n → Z.max 0 (j - mu_) ≤ i ≤ Z.min (j + ml_) (n - 1) →
  0 ≤ smu J + (i - j) ∧
  (Z.to_nat (smu J + (i - j)) < length (band_col J j))%nat.
Proof.
  intros Hmu Hml (H1 & H2 & H3 & H4 & H5 & H6) Hj Hi.
  rewrite H4. split; [lia|].
  destruct (lookup_lt_is_Some_2 (data J) (Z.to_nat j) ltac:(lia)) as [c Hc].
  unfold band_col. rewrite (rd_lookup _ _ _ c) by (done || lia).
  rewrite Forall_forall in H6. rewrite (H6 c); [lia|].
  apply list_elem_of_lookup. eauto.
Qed.

(** The matrix BandAllocMat gives when memory is available has the storage
    KBBDDQJac relies on. *)
Lemma alloc_ok_band_shape junk junkp n mu_ ml_ su J :
  BandAllocMat (alloc_ok junk junkp) n mu_ ml_ su = Some J →
  band_shape n mu_ ml_ su J.
Proof.
  simpl. case_decide; [done|]. intros [= <-]. unfold band_shape; simpl.
  repeat split; try done.
  - by rewrite length_replicate.
  - apply Forall_replicate. by rewrite length_replicate.
Qed.


(** Column j after KBBDDQJac, on a matrix J with the storage KBBDAlloc asks
    for: the call of gloc for the group of j, its input and its output, the
    elements of the row range, and the other stored values of the column. *)
Lemma KBBDDQJac_column Nlocal J pdata uu uscale gu gtemp utemp ud :
  0 ≤ mu pdata → 0 ≤ ml pdata →
  length uu = Z.to_nat Nlocal →
  band_shape Nlocal (mu pdata) (ml pdata) (mu pdata + ml pdata) J →
  let m := KBBDDQJac Nlocal J pdata uu uscale gu gtemp utemp ud in
  let width := ml pdata + mu pdata + 1 in
  let G_b := G_base Nlocal pdata uu ud in
  ∀ j, 0 ≤ j < Nlocal →
    ∃ u_pert G_pert,
      dq_calls m !! (Z.to_nat (j mod width) + 2)%nat
      = Some (call_gloc u_pert G_pert) ∧
      (∃ ud', G_pert = (gloc pdata Nlocal u_pert ud').1) ∧
      (∀ j', 0 ≤ j' < Nlocal →
         rd ZERO u_pert j'
         = group_input (rel_uu pdata) width uu uscale (j mod width + 1) j') ∧
      (∀ i, Z.max 0 (j - mu pdata) ≤ i ≤ Z.min (j + ml pdata) (Nlocal - 1) →
         BAND_COL_ELEM (dq_J m) i j
         = rmul (rdiv ONE (dq_inc (rel_uu pdata) uu uscale j))
             (rsub (rd ZERO G_pert i) (rd ZERO G_b i))) ∧
      (∀ k, ¬ (Z.max 0 (j - mu pdata) ≤ k - smu J + j
                 ≤ Z.min (j + ml pdata) (Nlocal - 1)) →
         rd ZERO (band_col (dq_J m) j) k = rd ZERO (band_col J j) k).
Proof.
  intros Hmu Hml Huu Hshape m width G_b j Hj.
  assert (Hw : 1 ≤ width) by (unfold width; lia).
  assert (Hcolumns : length (data J) = Z.to_nat Nlocal) by apply Hshape.
  pose proof (KBBDDQJac_inv pdata Nlocal J uu uscale Hw Huu gu gtemp utemp ud)
    as Hinv.
  pose proof (KBBDDQJac_J_inv pdata Nlocal J uu uscale Hw Huu Hcolumns
                (λ j i, band_shape_height _ _ _ J j i Hmu Hml Hshape)
                gu gtemp utemp ud) as HJ.
  fold width m G_b in Hinv, HJ. destruct Hinv, HJ.
  pose proof (Z.mod_pos_bound j width ltac:(lia)) as Hmod.
  pose proof (Z.mod_le j width ltac:(lia) ltac:(lia)) as Hmod'.
  assert (Hg : j mod width < Z.of_nat (Z.to_nat (Z.min width Nlocal))) by lia.
  destruct (inv_call_group0 (Z.to_nat (j mod width)) ltac:(lia))
    as (u & gout & Hcall & _ & Hu).
  exists u, gout. split; [done|]. split; [|split; [|split]].
  - by apply (KBBDDQJac_calls_sound Nlocal J pdata uu uscale gu gtemp utemp ud
                (Z.to_nat (j mod width) + 2)%nat).
  - intros j' Hj'. rewrite Hu by done. fold width.
    by rewrite Z2Nat.id by lia.
  - intros i Hi. rewrite (inv_J_new0 j i) by done. fold width.
    unfold nth_call. by rewrite Hcall.
  - intros k Hk. apply inv_J_old0; [done|]. tauto.
Qed.

(** C2, as the code has it: KBBDDQJac on a matrix J with the storage
    KBBDAlloc asks for.  For a column j, let [u_pert] and [G_pert] be the
    input and the output of the call of gloc for the group of j (the
    components of that group incremented), and G_base the output of the
    base call.  For every row i in [max(0, j-mu), min(j+ml, N-1)] the
    element (i,j) is inc_inv * (G_pert[i] - G_base[i]) with
    inc_inv = ONE / inc_j and inc_j = rel_uu * MAX(|uu_j|, ONE/uscale_j),
    every operation being the one of realtype: the product with the
    reciprocal, not the quotient.  The other stored values of column j are
    those of J. *)
Theorem KBBDDQJac_difference_quotients Nlocal J pdata uu uscale gu gtemp utemp ud :
  0 ≤ mu pdata → 0 ≤ ml pdata →
  length uu = Z.to_nat Nlocal →
  band_shape Nlocal (mu pdata) (ml pdata) (mu pdata + ml pdata) J →
  let m := KBBDDQJac Nlocal J pdata uu uscale gu gtemp utemp ud in
  let width := ml pdata + mu pdata + 1 in
  let G_b := G_base Nlocal pdata uu ud in
  ∀ j, 0 ≤ j < Nlocal →
    let inc_j := rmul (rel_uu pdata)
                   (MAX (ABS (rd ZERO uu j)) (rdiv ONE (rd ZERO uscale j))) in
    let inc_inv := rdiv ONE inc_j in
    ∃ u_pert G_pert,
      dq_calls m !! (Z.to_nat (j mod width) + 2)%nat
      = Some (call_gloc u_pert G_pert) ∧
      (∃ ud', G_pert = (gloc pdata Nlocal u_pert ud').1) ∧
      (∀ j', 0 ≤ j' < Nlocal →
         rd ZERO u_pert j'
         = group_input (rel_uu pdata) width uu uscale (j mod width + 1) j') ∧
      (∀ i, Z.max 0 (j - mu pdata) ≤ i ≤ Z.min (j + ml pdata) (Nlocal - 1) →
         BAND_COL_ELEM (dq_J m) i j
         = rmul inc_inv (rsub (rd ZERO G_pert i) (rd ZERO G_b i))) ∧
      (∀ k, ¬ (Z.max 0 (j - mu pdata) ≤ k - smu J + j
                 ≤ Z.min (j + ml pdata) (Nlocal - 1)) →
         rd ZERO (band_col (dq_J m) j) k = rd ZERO (band_col J j) k).
Proof.
  intros Hmu Hml Huu Hshape m width G_b j Hj inc_j inc_inv.
  apply (KBBDDQJac_column Nlocal J pdata uu uscale gu gtemp utemp ud
           Hmu Hml Huu Hshape j Hj).
Qed.

(** C5, as the code has it: KBBDDQJac makes no test on the scaling vector.
    For every column j it evaluates
    inc_j = rel_uu * MAX(ABS(uu_j), ONE/uscale_j), the scale component
    being the divisor of ONE whatever its value (when it is ZERO the
    divisor is ZERO); the input of the call of gloc for the group of j has
    ONE * uu_j + inc_j as its component j, and the elements of column j are
    the differences multiplied by ONE / inc_j. *)
Theorem KBBDDQJac_increment_unguarded Nlocal J pdata uu uscale gu gtemp utemp ud :
  0 ≤ mu pdata → 0 ≤ ml pdata →
  length uu = Z.to_nat Nlocal →
  band_shape Nlocal (mu pdata) (ml pdata) (mu pdata + ml pdata) J →
  let m := KBBDDQJac Nlocal J pdata uu uscale gu gtemp utemp ud in
  let width := ml pdata + mu pdata + 1 in
  let G_b := G_base Nlocal pdata uu ud in
  ∀ j, 0 ≤ j < Nlocal →
    let inc_j := rmul (rel_uu pdata)
                   (MAX (ABS (rd ZERO uu j)) (rdiv ONE (rd ZERO uscale j))) in
    ∃ u_pert G_pert,
      dq_calls m !! (Z.to_nat (j mod width) + 2)%nat
      = Some (call_gloc u_pert G_pert) ∧
      rd ZERO u_pert j = radd (rmul ONE (rd ZERO uu j)) inc_j ∧
      (rd ZERO uscale j = ZERO →
       rd ZERO u_pert j
       = radd (rmul ONE (rd ZERO uu j))
           (rmul (rel_uu pdata) (MAX (ABS (rd ZERO uu j)) (rdiv ONE ZERO)))) ∧
      (∀ i, Z.max 0 (j - mu pdata) ≤ i ≤ Z.min (j + ml pdata) (Nlocal - 1) →
         BAND_COL_ELEM (dq_J m) i j
         = rmul (rdiv ONE inc_j) (rsub (rd ZERO G_pert i) (rd ZERO G_b i))).
Proof.
  intros Hmu Hml Huu Hshape m width G_b j Hj inc_j.
  destruct (KBBDDQJac_column Nlocal J pdata uu uscale gu gtemp utemp ud
              Hmu Hml Huu Hshape j Hj) as (u & G & Hcall & _ & Hu & Helem & _).
  exists u, G. split; [exact Hcall|].
  assert (Huj : rd ZERO u j = radd (rmul ONE (rd ZERO uu j)) inc_j).
  { rewrite (Hu j Hj). unfold group_input.
    rewrite decide_True by lia. done. }
  split; [exact Huj|]. split; [|exact Helem].
  intros Hzero. rewrite Huj. unfold inc_j. by rewrite Hzero.
Qed.

(** C9, as the code has it: a rebuild writes neither uu nor uscale, and
    when KBBDDQJac returns utemp (the vector vtemp3 of the preconditioner
    data) equals uu.  KBBDPrecon changes the matrix, the pivots and nge of
    the preconditioner data and the contents of vtemp3, and it overwrites
    the work vectors of its caller: vtemp1 holds g(uu), and vtemp2 the
    output of the last call of gloc (when Nlocal >= 1; it is untouched
    when there is no group).  mu, ml, the callbacks, rel_uu, n_local and
    the work space sizes stay. *)
Theorem KBBDPrecon_frame pdata uu uscale vtemp1 vtemp2 ud PP0 piv v3 :
  0 ≤ mu pdata → 0 ≤ ml pdata →
  length uu = Z.to_nat (n_local pdata) →
  PP pdata = Some PP0 → pivots pdata = Some piv → vtemp3 pdata = Some v3 →
  let m := KBBDDQJac (n_local pdata) (BandZero PP0) pdata
             uu uscale vtemp1 vtemp2 v3 ud in
  (dq_uu m = uu ∧ dq_uscale m = uscale ∧ dq_utemp m = uu) ∧
  ∃ out, KBBDPrecon uu uscale vtemp1 vtemp2 pdata ud = Some out ∧
    po_uu out = uu ∧ po_uscale out = uscale ∧
    vtemp3 (po_pdata out) = Some uu ∧
    mu (po_pdata out) = mu pdata ∧ ml (po_pdata out) = ml pdata ∧
    gloc (po_pdata out) = gloc pdata ∧ gcomm (po_pdata out) = gcomm pdata ∧
    rel_uu (po_pdata out) = rel_uu pdata ∧
    n_local (po_pdata out) = n_local pdata ∧
    rpwsize (po_pdata out) = rpwsize pdata ∧
    ipwsize (po_pdata out) = ipwsize pdata ∧
    nge (po_pdata out)
    = nge pdata + (1 + Z.min (ml pdata + mu pdata + 1) (n_local pdata)) ∧
    PP (po_pdata out) = Some (BandFactor (dq_J m) piv).1.1 ∧
    pivots (po_pdata out) = Some (BandFactor (dq_J m) piv).1.2 ∧
    po_vtemp1 out = G_base (n_local pdata) pdata uu ud ∧
    (1 ≤ n_local pdata →
     ∃ u, last (po_calls out) = Some (call_gloc u (po_vtemp2 out))) ∧
    (n_local pdata ≤ 0 → po_vtemp2 out = vtemp2) ∧
    po_calls out = dq_calls m ∧ po_ud out = dq_ud m.
Proof.
  intros Hmu Hml Huu HPP Hpiv Hv3 m.
  set (width := ml pdata + mu pdata + 1).
  assert (Hw : 1 ≤ width) by (unfold width; lia).
  pose proof (KBBDDQJac_inv pdata (n_local pdata) (BandZero PP0) uu uscale
                Hw Huu vtemp1 vtemp2 v3 ud) as Hinv.
  fold width m in Hinv. destruct Hinv.
  assert (Hut : dq_utemp m = uu).
  { apply (rd_ext ZERO); [done|]. intros j Hj Hlen.
    rewrite inv_utemp0 by lia. fold width.
    pose proof (Z.mod_pos_bound j width ltac:(lia)).
    pose proof (Z.mod_le j width ltac:(lia) ltac:(lia)).
    rewrite decide_True by lia. done. }
  split; [done|].
  destruct (KBBDDQJac_frame (n_local pdata) (BandZero PP0) pdata
              uu uscale vtemp1 vtemp2 v3 ud) as (_ & _ & Hgu & _).
  destruct (KBBDDQJac_gtemp (n_local pdata) (BandZero PP0) pdata
              uu uscale vtemp1 vtemp2 v3 ud) as [Hlast Hnone].
  fold m width in Hgu, Hlast, Hnone.
  unfold KBBDPrecon. rewrite HPP, Hpiv, Hv3. simpl. fold m.
  destruct (BandFactor (dq_J m) piv) as [[A p] ier]. eexists. split; [done|].
  simpl. rewrite Hut.
  do 12 (split; [done|]). split; [done|]. split; [done|].
  split; [exact Hgu|]. split; [|split; [|done]].
  - intros HN. apply Hlast. lia.
  - intros HN. apply Hnone. lia.
Qed.

End BuilderClaims.

(** ** The band factorization of the model *)

Section BandRoutineFacts.

Context {R : Type} {RA : RealArith R}.
Implicit Types (a : list (list R)) (c : list R) (p : list Z).

Lemma wr_wr_eq {A : Type} (q : list A) k x y : wr (wr q k x) k y = wr q k y.
Proof. unfold wr. case_decide; [apply list_insert_insert_eq | done]. Qed.

Lemma wr_wr_comm {A : Type} (q : list A) k1 k2 x y :
  k1 ≠ k2 → wr (wr q k1 x) k2 y = wr (wr q k2 y) k1 x.
Proof.
  intros Hne. unfold wr. repeat case_decide; try done.
  apply list_insert_insert_ne. lia.
Qed.

Lemma put_all_snoc stores k l p :
  put_all (stores ++ [(k, l)]) p = wr (put_all stores p) k l.
Proof. unfold put_all. by rewrite fold_left_app. Qed.

Lemma put_all_last stores p k l :
  wr (put_all stores (wr p k l)) k l = wr (put_all stores p) k l.
Proof.
  revert p. induction stores as [|[k1 l1] stores IH]; intros p; simpl.
  - apply wr_wr_eq.
  - destruct (decide (k = k1)) as [->|Hne].
    + by rewrite wr_wr_eq.
    + rewrite (wr_wr_comm p k k1) by done. apply IH.
Qed.

(** Making the same stores a second time changes nothing. *)
Lemma put_all_idemp stores p :
  put_all stores (put_all stores p) = put_all stores p.
Proof.
  revert p. induction stores as [|[k l] stores IH] using rev_ind; intros p.
  - done.
  - rewrite !put_all_snoc, put_all_last. by rewrite IH.
Qed.

(** The elimination steps read the pivot array nowhere: the array, the
    stores into the pivot array and the code do not depend on it. *)
Lemma gbfa_steps_stores n ml_ su (ks : list Z) a (r : option Z) :
  ∃ a' stores r', ∀ p,
    fold_left (gbfa_step n ml_ su) ks (a, p, r) = (a', put_all stores p, r').
Proof.
  revert a r. induction ks as [|k ks IH]; intros a r.
  - by exists a, [], r.
  - cbn [fold_left].
    assert (Hstep : ∃ a1 st r1, ∀ p,
              gbfa_step n ml_ su (a, p, r) k = (a1, put_all st p, r1)).
    { unfold gbfa_step. destruct r as [code|]; [by eexists _, [], _|].
      destruct (reqb _ ZERO); by eexists _, [(k, _)], _. }
    destruct Hstep as (a1 & st & r1 & Hstep).
    destruct (IH a1 r1) as (a' & stores & r' & H).
    exists a', (st ++ stores), r'. intros p.
    rewrite Hstep, H. unfold put_all. by rewrite fold_left_app.
Qed.

Lemma gbfa_stores a n mu_ ml_ su :
  ∃ a' stores ier, ∀ p,
    gbfa a n mu_ ml_ su p = (a', put_all stores p, ier).
Proof.
  unfold gbfa.
  destruct (gbfa_steps_stores n ml_ su (seqZ 0 (n - 1))
              (map (λ c, fold_left (λ c r, wr c r ZERO) (seqZ 0 (su - mu_)) c) a)
              None) as (a' & stores & r' & H).
  destruct r' as [code|].
  - exists a', stores, code. intros p. by rewrite H.
  - destruct (reqb (rd ZERO (rd [] a' (n - 1)) su) ZERO) eqn:Hz.
    + exists a', (stores ++ [(n - 1, n - 1)]), n. intros p.
      by rewrite H, Hz, put_all_snoc.
    + exists a', (stores ++ [(n - 1, n - 1)]), 0. intros p.
      by rewrite H, Hz, put_all_snoc.
Qed.

(** The code of an elimination step is a column between 1 and n - 1. *)
Lemma gbfa_steps_code n ml_ su (ks : list Z) a p (r : option Z) :
  (∀ k, k ∈ ks → 0 ≤ k < n - 1) →
  (∀ code, r = Some code → 1 ≤ code ≤ n - 1) →
  ∀ code, (fold_left (gbfa_step n ml_ su) ks (a, p, r)).2 = Some code →
          1 ≤ code ≤ n - 1.
Proof.
  revert a p r. induction ks as [|k ks IH]; intros a p r Hks Hr; simpl.
  - done.
  - assert (Hk : 0 ≤ k < n - 1) by (apply Hks; by left).
    assert (Hks' : ∀ k', k' ∈ ks → 0 ≤ k' < n - 1)
      by (intros k' Hk'; apply Hks; by right).
    destruct r as [code0|].
    + by apply IH.
    + destruct (reqb _ ZERO).
      * apply IH; [done|]. intros code [= <-]. lia.
      * by apply IH.
Qed.

(** The codes of the factorization: 0, or a column between 1 and n. *)
Lemma gbfa_code a n mu_ ml_ su p :
  1 ≤ n →
  let ier := (gbfa a n mu_ ml_ su p).2 in ier = 0 ∨ 1 ≤ ier ≤ n.
Proof.
  intros Hn. unfold gbfa.
  pose proof (gbfa_steps_code n ml_ su (seqZ 0 (n - 1))
                (map (λ c, fold_left (λ c r, wr c r ZERO) (seqZ 0 (su - mu_)) c) a)
                p None) as Hcode.
  destruct (fold_left _ _ _) as [[a' p'] r'].
  destruct r' as [code|]; simpl.
  - right. cut (1 ≤ code ≤ n - 1); [lia|]. apply Hcode; [|done|done].
    intros k Hk%elem_of_seqZ. lia.
  - destruct (reqb _ ZERO); simpl; [right; lia | by left].
Qed.

Lemma length_fold_wr {A B : Type} (pos : B → Z) (val : list A → B → A)
    (l : list B) (q : list A) :
  length (fold_left (λ q i, wr q (pos i) (val q i)) l q) = length q.
Proof.
  revert q. induction l as [|i l IH]; intros q; simpl; [done|].
  by rewrite IH, length_wr.
Qed.

(** Replacing a column by one of the same length keeps the lengths of the
    columns. *)
Lemma shape_wr a j c :
  length c = length (rd [] a j) → length <$> wr a j c = length <$> a.
Proof.
  intros Hlen. unfold wr. case_decide as Hj; [|done].
  rewrite list_fmap_insert.
  destruct (a !! Z.to_nat j) as [c0|] eqn:Hc0.
  - apply list_insert_id. rewrite list_lookup_fmap, Hc0. simpl.
    rewrite Hlen. unfold rd. rewrite decide_True by done. by rewrite Hc0.
  - apply list_insert_ge. rewrite length_fmap. by apply lookup_ge_None.
Qed.

Lemma shape_elim_col col_k su k l last_row_k a j :
  length <$> elim_col col_k su k l last_row_k a j = length <$> a.
Proof.
  unfold elim_col. apply shape_wr.
  destruct (reqb _ ZERO); case_decide;
    rewrite ?(length_fold_wr (λ i, ROW i j su)
                (λ c i, radd (rd ZERO c (ROW i j su)) _)), ?length_wr; done.
Qed.

Lemma shape_gbfa_step n ml_ su a p r k :
  length <$> (gbfa_step n ml_ su (a, p, r) k).1.1 = length <$> a.
Proof.
  unfold gbfa_step. destruct r as [code|]; [done|].
  destruct (reqb _ ZERO); [done|]. simpl.
  generalize (seqZ (k + 1) (Z.min (k + su) (n - 1) - k)). intros js.
  match goal with |- context [fold_left ?f js (wr a k ?ck)] =>
    set (F := f); set (col_k := ck) end.
  assert (Hck : length <$> wr a k col_k = length <$> a).
  { apply shape_wr. unfold col_k.
    rewrite (length_fold_wr (λ i, ROW i k su) (λ c i, rmul (rd ZERO c (ROW i k su)) _)).
    case_decide; rewrite ?length_wr; done. }
  rewrite <- Hck. generalize (wr a k col_k). intros a0.
  revert a0. induction js as [|j js IH]; intros a0; simpl; [done|].
  rewrite IH. apply shape_elim_col.
Qed.

Lemma shape_gbfa_steps n ml_ su (ks : list Z) a p r :
  length <$> (fold_left (gbfa_step n ml_ su) ks (a, p, r)).1.1 = length <$> a.
Proof.
  revert a p r. induction ks as [|k ks IH]; intros a p r; [done|].
  cbn [fold_left].
  destruct (gbfa_step n ml_ su (a, p, r) k) as [[a1 p1] r1] eqn:Hstep.
  rewrite IH. pose proof (shape_gbfa_step n ml_ su a p r k) as Hs.
  by rewrite Hstep in Hs.
Qed.

(** The factorization keeps the lengths of the columns. *)
Lemma shape_gbfa a n mu_ ml_ su p :
  length <$> (gbfa a n mu_ ml_ su p).1.1 = length <$> a.
Proof.
  unfold gbfa.
  pose proof (shape_gbfa_steps n ml_ su (seqZ 0 (n - 1))
                (map (λ c, fold_left (λ c r, wr c r ZERO) (seqZ 0 (su - mu_)) c) a)
                p None) as Hs.
  destruct (fold_left _ _ _) as [[a' p'] r'].
  assert (Ha' : length <$> a' = length <$> a).
  { simpl in Hs. rewrite Hs.
    change (map ?f a) with (f <$> a). rewrite <- list_fmap_compose.
    apply list_fmap_ext. intros i c _. simpl.
    apply (length_fold_wr (λ r, r) (λ _ _, ZERO)). }
  destruct r' as [code|]; [done|]. by destruct (reqb _ ZERO).
Qed.

Lemma map_zero_shape a a' :
  length <$> a' = length <$> a →
  map (map (λ _ : R, ZERO)) a' = map (map (λ _ : R, ZERO)) a.
Proof.
  intros Hs.
  assert (Hz : ∀ b : list (list R),
            map (map (λ _ : R, ZERO)) b = (λ n, replicate n ZERO) <$> (length <$> b)).
  { intros b. rewrite <- list_fmap_compose. apply list_fmap_ext.
    intros i c _. simpl. by apply const_fmap. }
  by rewrite !Hz, Hs.
Qed.

(** The band factorization of the model is stable at every matrix and every
    pivot array, and its codes are those of the spec: 0, or the 1-based
    column of the zero pivot. *)
Lemma band_c_factor_stable (J : BandMat (R := R)) piv :
  factor_stable (BS := band_c) J piv.
Proof.
  unfold factor_stable; simpl.
  destruct (gbfa_stores (data J) (size J) (bmu J) (bml J) (smu J))
    as (a' & stores & ier & H).
  pose proof (shape_gbfa (data J) (size J) (bmu J) (bml J) (smu J) piv) as Hs.
  rewrite !H. rewrite H in Hs. simpl in Hs. split.
  - unfold BandZero; simpl. f_equal. by apply map_zero_shape.
  - by rewrite put_all_idemp.
Qed.

Lemma band_c_code (J : BandMat (R := R)) piv :
  1 ≤ size J →
  let ier := (BandFactor (BandSolver := band_c) J piv).2 in
  ier = 0 ∨ 1 ≤ ier ≤ size J.
Proof.
  intros Hn. simpl.
  pose proof (gbfa_code (data J) (size J) (bmu J) (bml J) (smu J) piv Hn) as Hc.
  by destruct (gbfa _ _ _ _ _ _) as [[a' p'] ier].
Qed.

End BandRoutineFacts.

(** ** The claims about KBBDAlloc, KBBDPrecon and KBBDPSol *)

Section DriverClaims.

Context {R : Type} {RA : RealArith R} {fdata : Type} {BS : BandSolver (R := R)}.
Implicit Types (J : BandMat (R := R)) (pdata : @KBBDDataRec R fdata).
Implicit Types (al : allocator (R := R)) (kin_mem : KINMemRec (R := R)).

(** KBBDDQJac reads mu, ml, rel_uu and the two callbacks of the
    preconditioner data, nothing else. *)
Lemma KBBDDQJac_config N J pdata1 pdata2 uu uscale gu gt ut ud :
  mu pdata1 = mu pdata2 → ml pdata1 = ml pdata2 →
  gloc pdata1 = gloc pdata2 → gcomm pdata1 = gcomm pdata2 →
  rel_uu pdata1 = rel_uu pdata2 →
  KBBDDQJac N J pdata1 uu uscale gu gt ut ud
  = KBBDDQJac N J pdata2 uu uscale gu gt ut ud.
Proof.
  destruct pdata1, pdata2; simpl. intros -> -> -> -> ->. reflexivity.
Qed.

(** KBBDPrecon returns whenever the three pointers of the data are set. *)
Lemma KBBDPrecon_unfold pdata uu uscale vtemp1 vtemp2 ud PP0 piv v3 :
  PP pdata = Some PP0 → pivots pdata = Some piv → vtemp3 pdata = Some v3 →
  let m := KBBDDQJac (n_local pdata) (BandZero PP0) pdata
             uu uscale vtemp1 vtemp2 v3 ud in
  KBBDPrecon uu uscale vtemp1 vtemp2 pdata ud
  = Some (mkPreconOut
            (mkKBBDData (mu pdata) (ml pdata) (gloc pdata) (gcomm pdata)
               (Some (BandFactor (dq_J m) piv).1.1)
               (Some (BandFactor (dq_J m) piv).1.2)
               (Some (dq_utemp m)) (rel_uu pdata) (n_local pdata)
               (rpwsize pdata) (ipwsize pdata)
               (nge pdata + (1 + Z.min (ml pdata + mu pdata + 1) (n_local pdata))))
            (dq_uu m) (dq_uscale m) (dq_gu m) (dq_gtemp m) (dq_ud m)
            (dq_calls m)
            (if decide ((BandFactor (dq_J m) piv).2 > 0) then 1 else 0)).
Proof.
  intros HPP Hpiv Hv3 m. unfold KBBDPrecon. rewrite HPP, Hpiv, Hv3. simpl.
  fold m. by destruct (BandFactor (dq_J m) piv) as [[A p] ier].
Qed.

Lemma KBBDPrecon_Some pdata uu uscale vtemp1 vtemp2 ud out :
  KBBDPrecon uu uscale vtemp1 vtemp2 pdata ud = Some out →
  ∃ PP0 piv v3,
    PP pdata = Some PP0 ∧ pivots pdata = Some piv ∧ vtemp3 pdata = Some v3.
Proof.
  unfold KBBDPrecon.
  destruct (vtemp3 pdata), (PP pdata), (pivots pdata); simpl; try done.
  intros _. by eexists _, _, _.
Qed.


(** The data KBBDAlloc returns when it does not return NULL. *)
Lemma KBBDAlloc_Some al N mu_ ml_ dq_rel gl gc kinmem pdata :
  KBBDAlloc al N mu_ ml_ dq_rel gl gc kinmem = Some (Some pdata) →
  ∃ kin_mem, kinmem = Some kin_mem ∧
    pdata = mkKBBDData mu_ ml_ gl gc
              (BandAllocMat al N mu_ ml_ (mu_ + ml_)) (BandAllocPiv al N)
              (N_VNew al N (kin_machenv kin_mem))
              (if rltb ZERO dq_rel then dq_rel
               else RSqrt (kin_uround kin_mem))
              N (N * (2 * mu_ + ml_ + 1)) N 0 ∧
    is_Some (PP pdata) ∧ is_Some (vtemp3 pdata).
Proof.
  unfold KBBDAlloc. destruct kinmem as [kin_mem|]; [|done].
  destruct (_ || _); [done|]. destruct (negb _); [done|].
  destruct (BandAllocMat al N mu_ ml_ (mu_ + ml_)) as [A|] eqn:HA; simpl; [|done].
  destruct (N_VNew al N (kin_machenv kin_mem)) as [v|] eqn:Hv; simpl; [|done].
  intros [= <-]. exists kin_mem. simpl. rewrite ?HA, ?Hv.
  by repeat split; eexists.
Qed.




(** C7: a second call of KBBDPrecon with the same uu and uscale and the
    same user data, whatever the work vectors hold, rebuilds the same matrix
    (the matrices handed to BandFactor are equal) and gives the same
    factors, pivots and return value as the first: the first call left its
    factors in PP, and BandZero makes the second rebuild start from the same
    zero matrix.  The band factorization is a parameter; it is assumed
    stable at the rebuilt matrix ([factor_stable]). *)
Theorem KBBDPrecon_deterministic pdata uu uscale vtemp1 vtemp2 vtemp1' vtemp2' ud out1 :
  KBBDPrecon uu uscale vtemp1 vtemp2 pdata ud = Some out1 →
  (∀ PP0 v3 piv,
     PP pdata = Some PP0 → vtemp3 pdata = Some v3 → pivots pdata = Some piv →
     factor_stable
       (dq_J (KBBDDQJac (n_local pdata) (BandZero PP0) pdata
                uu uscale vtemp1 vtemp2 v3 ud)) piv) →
  ∃ out2, KBBDPrecon uu uscale vtemp1' vtemp2' (po_pdata out1) ud = Some out2 ∧
    (∀ PP0 v3 PP1 v3',
       PP pdata = Some PP0 → vtemp3 pdata = Some v3 →
       PP (po_pdata out1) = Some PP1 → vtemp3 (po_pdata out1) = Some v3' →
       dq_J (KBBDDQJac (n_local pdata) (BandZero PP1) (po_pdata out1)
               uu uscale vtemp1' vtemp2' v3' ud)
       = dq_J (KBBDDQJac (n_local pdata) (BandZero PP0) pdata
                 uu uscale vtemp1 vtemp2 v3 ud)) ∧
    PP (po_pdata out2) = PP (po_pdata out1) ∧
    pivots (po_pdata out2) = pivots (po_pdata out1) ∧
    po_ret out2 = po_ret out1 ∧
    po_calls out2 = po_calls out1 ∧
    po_ud out2 = po_ud out1.
Proof.
  intros Hout Hstable.
  destruct (KBBDPrecon_Some _ _ _ _ _ _ _ Hout) as (PP0 & piv & v3 & HPP & Hpiv & Hv3).
  specialize (Hstable PP0 v3 piv HPP Hv3 Hpiv).
  rewrite (KBBDPrecon_unfold _ _ _ _ _ _ _ _ _ HPP Hpiv Hv3) in Hout.
  injection Hout as <-.
  set (m := KBBDDQJac (n_local pdata) (BandZero PP0) pdata
              uu uscale vtemp1 vtemp2 v3 ud) in *.
  unfold factor_stable in Hstable.
  destruct (BandFactor (dq_J m) piv) as [[A p] ier] eqn:HBF.
  destruct Hstable as [Hshape Hagain]. simpl.
  eexists. split; [by apply KBBDPrecon_unfold|]. simpl.
  set (m2 := KBBDDQJac _ _ _ _ _ _ _ _ _).
  assert (Hm2 : dq_J m2 = dq_J m ∧ dq_ud m2 = dq_ud m ∧ dq_calls m2 = dq_calls m).
  { unfold m2.
    rewrite (KBBDDQJac_config _ _ _ pdata) by done.
    rewrite Hshape.
    destruct (KBBDDQJac_frame (n_local pdata) (BandZero PP0) pdata
                uu uscale vtemp1 vtemp2 v3 ud) as (_ & _ & _ & HZ & _).
    fold m in HZ. rewrite HZ, BandZero_idemp.
    destruct (KBBDDQJac_work_vectors (n_local pdata) (BandZero PP0) pdata
                uu uscale vtemp1' vtemp2' (dq_utemp m) vtemp1 vtemp2 v3 ud)
      as (H1 & _ & _ & H4 & H5 & _).
    fold m in H1, H4, H5. done. }
  split.
  - intros PP0' v3_ PP1 v3' HPP' Hv3' [= <-] [= <-].
    rewrite HPP in HPP'. rewrite Hv3 in Hv3'.
    injection HPP' as <-. injection Hv3' as <-. apply Hm2.
  - destruct Hm2 as (-> & -> & ->). rewrite Hagain. done.
Qed.

(** C3, as the code has it: KBBDPSol makes no test of any state.  Whenever
    the matrix and the pivot array are there it does the backsolve on what
    they hold and returns 0; it leaves the preconditioner data as they are. *)
Theorem KBBDPSol_always_backsolves pdata vtem A piv :
  PP pdata = Some A → pivots pdata = Some piv →
  KBBDPSol vtem pdata = Some (pdata, BandBacksolve A piv vtem, 0).
Proof. intros HPP Hpiv. unfold KBBDPSol. by rewrite HPP, Hpiv. Qed.



End DriverClaims.

(** ** The perturbation increment in exact arithmetic *)

Section Increment.

#[local] Existing Instance Qc_arith.
#[local] Open Scope Qc_scope.

(** In exact arithmetic the product with the reciprocal is the quotient. *)
Lemma Qc_exact_division (a b : Qc) : rmul (rdiv ONE b) a = rdiv a b.
Proof. simpl. unfold Qcdiv. ring. Qed.

Lemma Qc_reciprocal_positive (s : Qc) : 0 < s → 0 < rdiv ONE s.
Proof.
  intros Hs. simpl. apply Qcnot_le_lt. intros Hle.
  apply (Qcmult_le_compat_r _ _ s) in Hle; [|by apply Qclt_le_weak].
  unfold Qcdiv in Hle.
  rewrite <- Qcmult_assoc, Qcmult_inv_l, Qcmult_0_l, Qcmult_1_l in Hle
    by (intros ->; by apply (Qclt_not_eq _ _ Hs)).
  by apply (Qcle_not_lt _ _ Hle).
Qed.

Lemma Qc_MAX_positive (a b : Qc) : 0 < b → 0 < MAX a b.
Proof.
  intros Hb. unfold MAX; simpl.
  destruct (Qclt_le_dec b a) as [Hlt|Hle]; [|done].
  by apply (Qclt_trans _ b).
Qed.

End Increment.

(** ** Evaluations *)

Section Evaluations.

#[local] Existing Instance float_arith.

(** In doubles the product with the reciprocal, which the code stores, is
    not always the quotient rounded once. *)
Example double_reciprocal_rounding :
  rmul (rdiv ONE 3%float) 5%float = 0x1.aaaaaaaaaaaaap+0%float ∧
  rdiv 5%float 3%float = 0x1.aaaaaaaaaaaabp+0%float.
Proof. split; reflexivity. Qed.

(** C2, counterexample: in doubles, for the data KBBDAlloc returned, the
    iterate (49, 2, 3, 4) and unit scales, KBBDDQJac stores
    2 - 2^-52 at (0,0), while the quotient (G_pert[0] - G_base[0]) / inc_0
    is 2. *)
Lemma KBBDDQJac_quotient_counterexample :
  let J := mkBandMat 4 1 1 2 (replicate 4 (replicate 4 0%float)) in
  let m := KBBDDQJac 4 J DoubleEx.pdata DoubleEx.uu49 DoubleEx.uscale
             [] [] [] 0%float in
  let G_b := G_base 4 DoubleEx.pdata DoubleEx.uu49 0%float in
  let inc_0 := rmul (rel_uu DoubleEx.pdata)
                 (MAX (ABS (rd ZERO DoubleEx.uu49 0))
                    (rdiv ONE (rd ZERO DoubleEx.uscale 0))) in
  ∃ u_pert G_pert,
    dq_calls m !! 2%nat = Some (call_gloc u_pert G_pert) ∧
    BAND_COL_ELEM (dq_J m) 0 0 = 0x1.fffffffffffffp+0%float ∧
    rdiv (rsub (rd ZERO G_pert 0) (rd ZERO G_b 0)) inc_0 = 2%float ∧
    BAND_COL_ELEM (dq_J m) 0 0
    ≠ rdiv (rsub (rd ZERO G_pert 0) (rd ZERO G_b 0)) inc_0.
Proof.
  intros J m G_b inc_0. eexists _, _.
  split; [vm_compute; reflexivity|].
  split; [vm_compute; reflexivity|].
  split; [vm_compute; reflexivity|].
  intros H. apply (f_equal (λ x, PrimFloat.eqb x 2%float)) in H.
  vm_compute in H. discriminate.
Qed.

(** In doubles a positive rel_uu and a positive scale component do not
    make the increment positive: an infinite scale component, or a product
    that underflows, gives the increment 0, and ONE/inc is then a division
    by zero. *)
Example dq_inc_double_zero_increment :
  dq_inc 0x1p-26%float [0%float] [infinity] 0 = 0%float ∧
  dq_inc 0x1p-600%float [0%float] [0x1p+600%float] 0 = 0%float ∧
  rdiv ONE (dq_inc 0x1p-600%float [0%float] [0x1p+600%float] 0) = infinity.
Proof. repeat split; reflexivity. Qed.

(** C9, counterexample: KBBDPrecon on the problem in doubles, called with
    vtemp1 = (9, 9, 9, 9) and vtemp2 = (8, 8, 8, 8): both vectors come back
    overwritten, and vtemp3, which held what the allocation left, holds
    uu. *)
Lemma KBBDPrecon_work_vectors_counterexample :
  ∃ out,
    KBBDPrecon (BS := band_c) DoubleEx.uu DoubleEx.uscale
      [9; 9; 9; 9]%float [8; 8; 8; 8]%float DoubleEx.pdata 0%float = Some out ∧
    po_vtemp1 out = [-4; 0; 0; 5]%float ∧
    rd ZERO (po_vtemp2 out) 0 = (-4)%float ∧
    rd ZERO (po_vtemp2 out) 1 = (-0x1.8p-25)%float ∧
    vtemp3 DoubleEx.pdata = Some [7; 7; 7; 7]%float ∧
    vtemp3 (po_pdata out) = Some [1; 2; 3; 4]%float.
Proof.
  eexists. split; [vm_compute; reflexivity|].
  repeat split; vm_compute; reflexivity.
Qed.

(** C5, counterexample: in doubles, a zero scale component is the divisor
    of ONE, and the increment is infinite: it is neither rel_uu * |u_j| (for
    u_j = 2) nor rel_uu (for u_j = 0). *)
Lemma dq_inc_zero_scale_counterexample :
  rd ZERO [0%float] 0 = ZERO ∧
  rdiv ONE (rd ZERO [0%float] 0) = infinity ∧
  dq_inc 0.5%float [2%float] [0%float] 0 = infinity ∧
  dq_inc 0.5%float [2%float] [0%float] 0 ≠ rmul 0.5%float (ABS 2%float) ∧
  dq_inc 0.5%float [0%float] [0%float] 0 = infinity ∧
  dq_inc 0.5%float [0%float] [0%float] 0 ≠ 0.5%float.
Proof.
  repeat split; try reflexivity.
  - intros H. apply (f_equal (λ x, PrimFloat.eqb x 1%float)) in H.
    vm_compute in H. discriminate.
  - intros H. apply (f_equal (λ x, PrimFloat.eqb x 0.5%float)) in H.
    vm_compute in H. discriminate.
Qed.

(** C3, counterexample: KBBDPSol returns 0 on data that KBBDAlloc has just
    returned and no KBBDPrecon has factored (PP holds what the allocation
    left), and it returns 0 after a KBBDPrecon that returned 1 for a
    singular matrix: the backsolve then runs on the unfinished factors. *)
Lemma KBBDPSol_unfactored_counterexample :
  DoubleEx.handle tri_gloc = Some (Some DoubleEx.pdata) ∧
  (∃ z, KBBDPSol (BS := band_c) [1; 0; 0; 1]%float DoubleEx.pdata
        = Some (DoubleEx.pdata, z, 0)) ∧
  (∃ out z,
     KBBDPrecon (BS := band_c) DoubleEx.uu DoubleEx.uscale [] []
       DoubleEx.pdata_flat 0%float = Some out ∧
     po_ret out = 1 ∧
     KBBDPSol (BS := band_c) [1; 0; 0; 1]%float (po_pdata out)
     = Some (po_pdata out, z, 0)).
Proof.
  split; [reflexivity|]. split.
  - eexists. vm_compute. reflexivity.
  - eexists _, _. split; [vm_compute; reflexivity|].
    split; vm_compute; reflexivity.
Qed.


(** C10: when BandAllocPiv returns NULL and the other allocations succeed,
    KBBDAlloc returns data whose pivot array is NULL (the test after
    BandAllocPiv looks at PP); KBBDPrecon and KBBDPSol on these data go
    through the NULL pointer. *)
Theorem KBBDAlloc_returns_data_without_pivots :
  BandAllocPiv (alloc_no_pivots 7%float) 4 = None ∧
  ∃ pdata,
    KBBDAlloc (alloc_no_pivots 7%float) 4 1 1 0%float tri_gloc tri_gcomm
      DoubleEx.kinmem = Some (Some pdata) ∧
    pivots pdata = None ∧
    is_Some (PP pdata) ∧ is_Some (vtemp3 pdata) ∧
    KBBDPrecon (BS := band_c) DoubleEx.uu DoubleEx.uscale [] [] pdata 0%float
    = None ∧
    KBBDPSol (BS := band_c) [1; 0; 0; 1]%float pdata = None.
Proof.
  split; [reflexivity|]. eexists. split; [reflexivity|]. simpl.
  repeat split; by eexists.
Qed.

End Evaluations.

(** ** The return codes *)

(** C8: in the table of the header, success is 0, the recoverable codes are
    positive and the fatal codes negative; but the two fatal conditions
    SUN_NLS_MEM_NULL and SUN_NLS_MEM_FAIL have the same value -1, and they
    are the only two names of a failure that share a value. *)
Theorem nls_codes_signs_and_collision :
  code_value SUN_NLS_SUCCESS = 0 ∧
  (∀ c, recoverable c = true → 0 < code_value c) ∧
  (∀ c, fatal c = true → code_value c < 0) ∧
  SUN_NLS_MEM_NULL ≠ SUN_NLS_MEM_FAIL ∧
  code_value SUN_NLS_MEM_NULL = code_value SUN_NLS_MEM_FAIL ∧
  (∀ c d, code_value c = code_value d → c ≠ d →
     (c = SUN_NLS_MEM_NULL ∧ d = SUN_NLS_MEM_FAIL) ∨
     (c = SUN_NLS_MEM_FAIL ∧ d = SUN_NLS_MEM_NULL)).
Proof.
  split; [done|]. split; [|split; [|split; [|split]]].
  - intros []; simpl; (done || lia).
  - intros []; simpl; (done || lia).
  - done.
  - done.
  - intros [] []; simpl; intros Hv Hne; try done; auto.
Qed.

(** ** The theorems at the small problem *)

Section Witnesses.

#[local] Existing Instance float_arith.
#[local] Existing Instance Qc_arith.


(** C2 as amended, in doubles, at the iterate (49, 2, 3, 4): element (0,0)
    is the product of the reciprocal of the increment and the difference. *)
Lemma KBBDDQJac_difference_quotients_witness :
  let J := mkBandMat 4 1 1 2 (replicate 4 (replicate 4 0%float)) in
  let m := KBBDDQJac (RA := float_arith) 4 J DoubleEx.pdata DoubleEx.uu49
             DoubleEx.uscale [] [] [] 0%float in
  let G_b := G_base 4 DoubleEx.pdata DoubleEx.uu49 0%float in
  ∃ u_pert G_pert,
    dq_calls m !! 2%nat = Some (call_gloc u_pert G_pert) ∧
    BAND_COL_ELEM (RA := float_arith) (dq_J m) 0 0
    = PrimFloat.mul
        (PrimFloat.div 1
           (dq_inc (RA := float_arith) (rel_uu DoubleEx.pdata)
              DoubleEx.uu49 DoubleEx.uscale 0))
        (PrimFloat.sub (rd 0%float G_pert 0) (rd 0%float G_b 0)).
Proof.
  intros J m G_b.
  destruct (KBBDDQJac_difference_quotients (RA := float_arith) (fdata := float)
              4 J DoubleEx.pdata DoubleEx.uu49 DoubleEx.uscale [] [] []
              0%float)
    with (j := 0) as (u & G & Hcall & _ & _ & Helem & _).
  - by vm_compute.
  - by vm_compute.
  - reflexivity.
  - unfold band_shape. simpl. repeat split; try reflexivity.
    repeat constructor.
  - by vm_compute.
  - exists u, G. split; [exact Hcall|]. apply Helem. simpl. lia.
Defined.

(** C9 as amended, at the problem in doubles, with work vectors that hold
    9s and 8s on entry. *)
Lemma KBBDPrecon_frame_witness :
  ∃ out,
    KBBDPrecon (BS := band_c) DoubleEx.uu DoubleEx.uscale
      [9; 9; 9; 9]%float [8; 8; 8; 8]%float DoubleEx.pdata 0%float = Some out ∧
    po_uu out = DoubleEx.uu ∧ po_uscale out = DoubleEx.uscale ∧
    vtemp3 (po_pdata out) = Some DoubleEx.uu ∧
    rel_uu (po_pdata out) = rel_uu DoubleEx.pdata ∧
    po_vtemp1 out = G_base 4 DoubleEx.pdata DoubleEx.uu 0%float ∧
    ∃ u, last (po_calls out) = Some (call_gloc u (po_vtemp2 out)).
Proof.
  destruct (KBBDPrecon_frame (RA := float_arith) (BS := band_c)
              DoubleEx.pdata DoubleEx.uu DoubleEx.uscale
              [9; 9; 9; 9]%float [8; 8; 8; 8]%float 0%float
              _ _ _ ltac:(by vm_compute) ltac:(by vm_compute)
              eq_refl eq_refl eq_refl eq_refl)
    as (_ & out & H1 & H2 & H3 & H4 & _ & _ & _ & _ & H5 & _ & _ & _ & _
        & _ & _ & H6 & H7 & _).
  exists out. split; [exact H1|]. split; [exact H2|]. split; [exact H3|].
  split; [exact H4|]. split; [exact H5|]. split; [exact H6|].
  apply H7. by vm_compute.
Defined.


(** C7 at the problem in doubles: a second call, with other contents in
    the work vectors, gives the factors, the pivots and the return value of
    the first. *)
Lemma KBBDPrecon_deterministic_witness :
  ∃ out1 out2,
    KBBDPrecon (BS := band_c) DoubleEx.uu DoubleEx.uscale [] []
      DoubleEx.pdata 0%float = Some out1 ∧
    KBBDPrecon (BS := band_c) DoubleEx.uu DoubleEx.uscale
      [9; 9; 9; 9]%float [8]%float (po_pdata out1) 0%float = Some out2 ∧
    PP (po_pdata out2) = PP (po_pdata out1) ∧
    pivots (po_pdata out2) = pivots (po_pdata out1) ∧
    po_ret out2 = po_ret out1.
Proof.
  destruct (KBBDPrecon (BS := band_c) DoubleEx.uu DoubleEx.uscale [] []
              DoubleEx.pdata 0%float) as [out1|] eqn:H1;
    [|by vm_compute in H1].
  destruct (KBBDPrecon_deterministic (RA := float_arith) (BS := band_c)
              DoubleEx.pdata DoubleEx.uu DoubleEx.uscale [] []
              [9; 9; 9; 9]%float [8]%float 0%float out1 H1)
    as (out2 & H2 & _ & H3 & H4 & H5 & _).
  - intros PP0 v3 piv [= <-] [= <-] [= <-]. vm_compute. split; reflexivity.
  - exists out1, out2. repeat split; assumption.
Defined.

(** C3 as amended, at the data KBBDAlloc returned in doubles. *)
Lemma KBBDPSol_always_backsolves_witness :
  ∃ A piv,
    PP DoubleEx.pdata = Some A ∧ pivots DoubleEx.pdata = Some piv ∧
    KBBDPSol (BS := band_c) [1; 0; 0; 1]%float DoubleEx.pdata
    = Some (DoubleEx.pdata,
            BandBacksolve (BandSolver := band_c) A piv [1; 0; 0; 1]%float, 0).
Proof.
  eexists _, _. split; [reflexivity|]. split; [reflexivity|].
  apply (KBBDPSol_always_backsolves (BS := band_c (RA := float_arith)));
    reflexivity.
Defined.


(** C5 as amended, in doubles, with a zero in the scaling vector: the
    divisor of ONE is that zero, and the component 0 of the input of gloc
    for group 1 is infinite. *)
Lemma KBBDDQJac_increment_unguarded_witness :
  let J := mkBandMat 4 1 1 2 (replicate 4 (replicate 4 0%float)) in
  let m := KBBDDQJac (RA := float_arith) 4 J DoubleEx.pdata DoubleEx.uu
             DoubleEx.uscale0 [] [] [] 0%float in
  rd 0%float DoubleEx.uscale0 0 = 0%float ∧
  ∃ u_pert G_pert,
    dq_calls m !! 2%nat = Some (call_gloc u_pert G_pert) ∧
    rd 0%float u_pert 0 = infinity.
Proof.
  intros J m. split; [reflexivity|].
  destruct (KBBDDQJac_increment_unguarded (RA := float_arith) (fdata := float)
              4 J DoubleEx.pdata DoubleEx.uu DoubleEx.uscale0 [] [] []
              0%float)
    with (j := 0) as (u & G & Hcall & _ & Hzero & _).
  - by vm_compute.
  - by vm_compute.
  - reflexivity.
  - unfold band_shape. simpl. repeat split; try reflexivity.
    repeat constructor.
  - by vm_compute.
  - exists u, G. split; [exact Hcall|]. apply Hzero. reflexivity.
Defined.

(** C8 at one code of each kind. *)
Lemma nls_codes_signs_and_collision_witness :
  0 < code_value SUN_NLS_NCONV_RECVR ∧ code_value SUN_NLS_VECTOROP_ERR < 0.
Proof.
  destruct nls_codes_signs_and_collision as (_ & Hrec & Hfat & _).
  split; [by apply Hrec | by apply Hfat].
Defined.

End Witnesses.

(** * Further properties of the preconditioner *)

Section PreconditionerFacts.

Context {R : Type} {RA : RealArith R} {fdata : Type} {BS : BandSolver (R := R)}.
Implicit Types (J : BandMat (R := R)) (pdata : @KBBDDataRec R fdata).

(** Two different indices with the same remainder modulo w are at least w
    apart. *)
Lemma same_residue_far (w j j' : Z) :
  1 ≤ w → j mod w = j' mod w → j ≠ j' → w ≤ j - j' ∨ w ≤ j' - j.
Proof.
  intros Hw Hmod Hne.
  pose proof (Z.div_mod j w ltac:(lia)) as Hj.
  pose proof (Z.div_mod j' w ltac:(lia)) as Hj'.
  rewrite Hmod in Hj.
  destruct (Z.lt_trichotomy (j / w) (j' / w)) as [Hlt|[Heq|Hgt]].
  - right. nia.
  - rewrite Heq in Hj. lia.
  - left. nia.
Qed.

Lemma group_cols_residue group w N j :
  1 ≤ w → j ∈ group_cols group w N →
  group - 1 ≤ j < N ∧ j mod w = (group - 1) mod w.
Proof.
  intros Hw Hin. unfold group_cols in Hin.
  apply elem_of_stride in Hin as [Hb Hm]; [|done|lia].
  split; [done|]. apply Z.mod_divide in Hm as [q Hq]; [|lia].
  replace j with (group - 1 + q * w) by lia. by rewrite Z.mod_add by lia.
Qed.

(** X3: the columns perturbed together have disjoint row ranges: no row i
    receives a quotient from two columns of one group. *)
Theorem group_row_ranges_disjoint (mu_ ml_ Nlocal group j j' i : Z) :
  1 ≤ ml_ + mu_ + 1 →
  j ∈ group_cols group (ml_ + mu_ + 1) Nlocal →
  j' ∈ group_cols group (ml_ + mu_ + 1) Nlocal →
  j ≠ j' →
  Z.max 0 (j - mu_) ≤ i ≤ Z.min (j + ml_) (Nlocal - 1) →
  ¬ (Z.max 0 (j' - mu_) ≤ i ≤ Z.min (j' + ml_) (Nlocal - 1)).
Proof.
  intros Hw Hj Hj' Hne Hi Hi'.
  apply group_cols_residue in Hj as [_ Hj]; [|done].
  apply group_cols_residue in Hj' as [_ Hj']; [|done].
  destruct (same_residue_far (ml_ + mu_ + 1) j j' Hw) as [Hfar|Hfar];
    [congruence | done | lia | lia].
Qed.

Lemma rd_BandZero J j k : rd ZERO (band_col (BandZero J) j) k = ZERO.
Proof.
  unfold band_col, BandZero, rd; simpl.
  destruct (decide (0 ≤ j)); [|by case_decide].
  change (map (map (λ _ : R, ZERO)) (data J))
    with (map (λ _ : R, ZERO) <$> data J).
  rewrite list_lookup_fmap.
  destruct (data J !! Z.to_nat j) as [c|]; simpl; [|by case_decide].
  case_decide; [|done].
  change (map (λ _ : R, ZERO) c) with ((λ _ : R, ZERO) <$> c).
  rewrite list_lookup_fmap. by destruct (c !! Z.to_nat k).
Qed.

Lemma band_shape_same_zero n mu_ ml_ su J J' :
  BandZero J' = BandZero J → band_shape n mu_ ml_ su J →
  band_shape n mu_ ml_ su J'.
Proof.
  intros HZ (H1 & H2 & H3 & H4 & H5 & H6).
  injection HZ as Hs Hu Hl Hsu Hd.
  assert (Hlen : length <$> data J' = length <$> data J).
  { apply (f_equal (fmap (M := list) length)) in Hd.
    change (map (map (λ _ : R, ZERO)) ?a)
      with (map (λ _ : R, ZERO) <$> a) in Hd.
    rewrite <- !list_fmap_compose in Hd.
    rewrite (list_fmap_ext (length ∘ map (λ _ : R, ZERO)) length (data J')) in Hd
      by (intros; simpl; apply length_map).
    rewrite (list_fmap_ext (length ∘ map (λ _ : R, ZERO)) length (data J)) in Hd
      by (intros; simpl; apply length_map).
    done. }
  unfold band_shape. rewrite Hs, Hu, Hl, Hsu. repeat split; try done.
  - apply (f_equal length) in Hlen. rewrite !length_fmap in Hlen. lia.
  - apply (Forall_fmap length (λ n, n = Z.to_nat (su + ml_ + 1))).
    rewrite Hlen. by apply Forall_fmap.
Qed.


(** X2: the matrix KBBDPrecon hands to BandFactor has the dimensions of PP and
    is zero wherever KBBDDQJac stores no quotient: element (i,j) reads ZERO
    for every row i outside [max(0, j-mu), min(j+ml, N-1)], the rows kept
    for the fill-in included. *)
Theorem KBBDPrecon_factors_banded_matrix pdata uu uscale vtemp1 vtemp2 ud PP0 piv v3 :
  0 ≤ mu pdata → 0 ≤ ml pdata →
  length uu = Z.to_nat (n_local pdata) →
  band_shape (n_local pdata) (mu pdata) (ml pdata) (mu pdata + ml pdata) PP0 →
  PP pdata = Some PP0 → pivots pdata = Some piv → vtemp3 pdata = Some v3 →
  ∃ J out,
    KBBDPrecon uu uscale vtemp1 vtemp2 pdata ud = Some out ∧
    PP (po_pdata out) = Some (BandFactor J piv).1.1 ∧
    pivots (po_pdata out) = Some (BandFactor J piv).1.2 ∧
    band_shape (n_local pdata) (mu pdata) (ml pdata) (mu pdata + ml pdata) J ∧
    ∀ j i, 0 ≤ j < n_local pdata →
      ¬ (Z.max 0 (j - mu pdata) ≤ i ≤ Z.min (j + ml pdata) (n_local pdata - 1)) →
      BAND_COL_ELEM J i j = ZERO.
Proof.
  intros Hmu Hml Huu Hshape HPP Hpiv Hv3.
  set (m := KBBDDQJac (n_local pdata) (BandZero PP0) pdata
              uu uscale vtemp1 vtemp2 v3 ud).
  exists (dq_J m). eexists. split; [by apply KBBDPrecon_unfold|]. simpl.
  fold m. split; [done|]. split; [done|].
  pose proof (band_shape_BandZero _ _ _ _ _ Hshape) as Hshape0.
  destruct (KBBDDQJac_frame (n_local pdata) (BandZero PP0) pdata
              uu uscale vtemp1 vtemp2 v3 ud) as (_ & _ & _ & HZ & _).
  fold m in HZ. split; [by apply (band_shape_same_zero _ _ _ _ (BandZero PP0))|].
  assert (Hw : 1 ≤ ml pdata + mu pdata + 1) by lia.
  assert (Hcolumns : length (data (BandZero PP0)) = Z.to_nat (n_local pdata))
    by apply Hshape0.
  pose proof (KBBDDQJac_J_inv pdata (n_local pdata) (BandZero PP0) uu uscale
                Hw Huu Hcolumns
                (λ j i, band_shape_height _ _ _ _ j i Hmu Hml Hshape0)
                vtemp1 vtemp2 v3 ud) as HJ.
  fold m in HJ. destruct HJ.
  intros j i Hj Hi. unfold BAND_COL_ELEM.
  rewrite inv_J_old0; [apply rd_BandZero | done |].
  rewrite inv_J_smu0. intros [_ Hr]. apply Hi. lia.
Qed.

(** X5: KBBDPrecon reads neither the entries PP holds on entry, nor the contents
    of vtemp1, vtemp2 and vtemp3, nor nge: two data with the same mu, ml,
    callbacks, rel_uu, n_local and pivot array, and matrices of the same
    dimensions, give the same factors, pivots, return value, callbacks and
    user data, and leave the same vectors in vtemp1 and vtemp3. *)
Theorem KBBDPrecon_ignores_old_contents pdata1 pdata2 uu uscale
    vtemp1 vtemp2 vtemp1' vtemp2' ud PP1 PP2 piv v3 v3' :
  mu pdata1 = mu pdata2 → ml pdata1 = ml pdata2 →
  gloc pdata1 = gloc pdata2 → gcomm pdata1 = gcomm pdata2 →
  rel_uu pdata1 = rel_uu pdata2 → n_local pdata1 = n_local pdata2 →
  PP pdata1 = Some PP1 → PP pdata2 = Some PP2 → BandZero PP1 = BandZero PP2 →
  pivots pdata1 = Some piv → pivots pdata2 = Some piv →
  vtemp3 pdata1 = Some v3 → vtemp3 pdata2 = Some v3' →
  ∃ out1 out2,
    KBBDPrecon uu uscale vtemp1 vtemp2 pdata1 ud = Some out1 ∧
    KBBDPrecon uu uscale vtemp1' vtemp2' pdata2 ud = Some out2 ∧
    PP (po_pdata out1) = PP (po_pdata out2) ∧
    pivots (po_pdata out1) = pivots (po_pdata out2) ∧
    vtemp3 (po_pdata out1) = vtemp3 (po_pdata out2) ∧
    po_ret out1 = po_ret out2 ∧
    po_vtemp1 out1 = po_vtemp1 out2 ∧
    po_calls out1 = po_calls out2 ∧
    po_ud out1 = po_ud out2.
Proof.
  intros Hmu Hml Hgl Hgc Hrel HN HP1 HP2 HZ Hp1 Hp2 Hv1 Hv2.
  eexists _, _. split; [by apply KBBDPrecon_unfold|].
  split; [by apply KBBDPrecon_unfold|]. simpl.
  rewrite (KBBDDQJac_config _ _ pdata1 pdata2) by done.
  rewrite HN, HZ.
  destruct (KBBDDQJac_work_vectors (n_local pdata2) (BandZero PP2) pdata2
              uu uscale vtemp1 vtemp2 v3 vtemp1' vtemp2' v3' ud)
    as (H1 & H2 & H3 & H4 & H5 & _).
  rewrite H1, H2, H3, H4, H5. done.
Qed.

(** X6: a run of rebuilds on data whose three pointers are set never meets a
    NULL pointer: every KBBDPrecon returns and leaves the three pointers
    set; mu, ml, the callbacks, rel_uu, n_local and the work space sizes
    stay, and nge has grown by 1 + MIN(ml + mu + 1, Nlocal) for each call. *)
Theorem precon_seq_keeps_data args pdata ud :
  is_Some (PP pdata) → is_Some (pivots pdata) → is_Some (vtemp3 pdata) →
  ∃ pdata' ud',
    precon_seq args pdata ud = Some (pdata', ud') ∧
    is_Some (PP pdata') ∧ is_Some (pivots pdata') ∧ is_Some (vtemp3 pdata') ∧
    mu pdata' = mu pdata ∧ ml pdata' = ml pdata ∧
    gloc pdata' = gloc pdata ∧ gcomm pdata' = gcomm pdata ∧
    rel_uu pdata' = rel_uu pdata ∧ n_local pdata' = n_local pdata ∧
    rpwsize pdata' = rpwsize pdata ∧ ipwsize pdata' = ipwsize pdata ∧
    nge pdata'
    = nge pdata
      + Z.of_nat (length args)
        * (1 + Z.min (ml pdata + mu pdata + 1) (n_local pdata)).
Proof.
  revert pdata ud. induction args as [|[[[uu us] v1] v2] args IH];
    intros pdata ud HPP Hpiv Hv3.
  - exists pdata, ud. simpl. repeat split; try done. lia.
  - destruct HPP as [PP0 HPP], Hpiv as [piv Hpiv], Hv3 as [v3 Hv3].
    cbn [precon_seq].
    rewrite (KBBDPrecon_unfold _ _ _ _ _ _ _ _ _ HPP Hpiv Hv3). simpl.
    edestruct IH as (pdata' & ud' & H0 & H1 & H2 & H3 & H4 & H5 & H6 & H7
                     & H8 & H9 & H10 & H11 & H12);
      [| | | exists pdata', ud'; split; [exact H0|]]; try (by eexists).
    simpl in *. rewrite H4, H5, H6, H7, H8, H9, H10, H11, H12.
    repeat split; try done. lia.
Qed.

(** X7: data returned by KBBDAlloc can be used exactly when BandAllocPiv gave a
    pivot array: KBBDPrecon and KBBDPSol return on them if it did, and go
    through the NULL pivot pointer if it did not. *)
Theorem KBBDAlloc_data_usable al N mu_ ml_ dq_rel gl gc kinmem pdata :
  KBBDAlloc al N mu_ ml_ dq_rel gl gc kinmem = Some (Some pdata) →
  (∀ uu uscale vtemp1 vtemp2 ud,
     is_Some (KBBDPrecon uu uscale vtemp1 vtemp2 pdata ud) ↔
     is_Some (BandAllocPiv al N)) ∧
  (∀ vtem, is_Some (KBBDPSol vtem pdata) ↔ is_Some (BandAllocPiv al N)).
Proof.
  intros Halloc.
  destruct (KBBDAlloc_Some _ _ _ _ _ _ _ _ _ Halloc)
    as (km & _ & -> & [A HA] & [v Hv]).
  simpl in HA, Hv. split.
  - intros uu uscale vtemp1 vtemp2 ud. unfold KBBDPrecon; simpl.
    rewrite HA, Hv; simpl. destruct (BandAllocPiv al N) as [piv|]; simpl.
    + destruct (BandFactor _ piv) as [[A' p'] ier]. split; by eexists.
    + split; intros [? ?]; done.
  - intros vtem. unfold KBBDPSol; simpl. rewrite HA; simpl.
    destruct (BandAllocPiv al N) as [piv|]; simpl.
    + split; by eexists.
    + split; intros [? ?]; done.
Qed.

End PreconditionerFacts.

(** * The memory of the preconditioner data *)

Section ResourceFacts.

Context {R : Type} {RA : RealArith R} {fdata : Type}.

(** The function with events returns what KBBDAlloc returns. *)
Lemma KBBDAlloc_mem_result al N mu_ ml_ (dq_rel : R)
    (gl : Z → N_Vector → fdata → N_Vector * fdata) gc kinmem :
  (KBBDAlloc_mem al N mu_ ml_ dq_rel gl gc kinmem).2
  = KBBDAlloc al N mu_ ml_ dq_rel gl gc kinmem.
Proof.
  unfold KBBDAlloc_mem, KBBDAlloc. destruct kinmem as [kin_mem|]; [|done].
  destruct (_ || _); [done|]. destruct (negb _); [done|].
  destruct (BandAllocMat al N mu_ ml_ (mu_ + ml_)); simpl; [|done].
  by destruct (N_VNew al N (kin_machenv kin_mem)).
Qed.

Ltac nothing_held :=
  intros _; split; [by left|]; split; split; try done;
  [ intros (km & [= <-] & ? & ? & ? & ? & ? & ? & [? ?] & ?); congruence
  | by intros [? _] ].

(** X8: when KBBDAlloc returns NULL it has released the structure, and holds
    nothing, on every path but one: when N_VNew fails, the band matrix, and
    the pivot array if BandAllocPiv gave one, are still held. *)
Theorem KBBDAlloc_NULL_return_memory al N mu_ ml_ (dq_rel : R)
    (gl : Z → N_Vector → fdata → N_Vector * fdata) gc kinmem :
  KBBDAlloc al N mu_ ml_ dq_rel gl gc kinmem = Some None →
  let held := live (KBBDAlloc_mem al N mu_ ml_ dq_rel gl gc kinmem).1 in
  (held = [] ∨ held = [blk_PP] ∨ held = [blk_PP; blk_pivots]) ∧
  (held ≠ [] ↔
   ∃ kin_mem, kinmem = Some kin_mem ∧
     tag (kin_machenv kin_mem) = "parallel"%string ∧
     nvmake (kin_machenv kin_mem) = true ∧
     nvdispose (kin_machenv kin_mem) = true ∧
     nvgetdata (kin_machenv kin_mem) = true ∧
     nvsetdata (kin_machenv kin_mem) = true ∧
     malloc_pdata al = true ∧
     is_Some (BandAllocMat al N mu_ ml_ (mu_ + ml_)) ∧
     N_VNew al N (kin_machenv kin_mem) = None) ∧
  (held = [blk_PP; blk_pivots] ↔ held ≠ [] ∧ is_Some (BandAllocPiv al N)).
Proof.
  unfold KBBDAlloc, KBBDAlloc_mem.
  destruct kinmem as [kin_mem|]; simpl; [|done].
  destruct (String.eqb_spec (tag (kin_machenv kin_mem)) "parallel") as [Ht|Ht];
    simpl; [|nothing_held].
  destruct (nvmake (kin_machenv kin_mem)) eqn:H1; simpl; [|nothing_held].
  destruct (nvdispose (kin_machenv kin_mem)) eqn:H2; simpl; [|nothing_held].
  destruct (nvgetdata (kin_machenv kin_mem)) eqn:H3; simpl; [|nothing_held].
  destruct (nvsetdata (kin_machenv kin_mem)) eqn:H4; simpl; [|nothing_held].
  destruct (malloc_pdata al) eqn:H5; simpl; [|nothing_held].
  destruct (BandAllocMat al N mu_ ml_ (mu_ + ml_)) as [A|] eqn:H6; simpl;
    [|nothing_held].
  destruct (N_VNew al N (kin_machenv kin_mem)) as [v|] eqn:H7; simpl; [done|].
  intros _.
  assert (Hreach : ∃ km : KINMemRec (R := R), Some kin_mem = Some km ∧
    tag (kin_machenv km) = "parallel"%string ∧
    nvmake (kin_machenv km) = true ∧ nvdispose (kin_machenv km) = true ∧
    nvgetdata (kin_machenv km) = true ∧ nvsetdata (kin_machenv km) = true ∧
    true = true ∧ is_Some (Some A) ∧ N_VNew al N (kin_machenv km) = None).
  { exists kin_mem. repeat split; try done; by eexists. }
  destruct (BandAllocPiv al N) as [piv|]; simpl.
  - split; [by right; right|]. by split; split.
  - split; [by right; left|]. split; split; try done.
    by intros [_ [? ?]].
Qed.

(** X9: KBBDFree after a successful KBBDAlloc releases the structure, the band
    matrix and the pivot array, and nothing else: the vector vtemp3 that
    KBBDAlloc obtained from N_VNew is still held. *)
Theorem KBBDFree_keeps_vtemp3 al N mu_ ml_ (dq_rel : R)
    (gl : Z → N_Vector → fdata → N_Vector * fdata) gc kinmem pdata :
  KBBDAlloc al N mu_ ml_ dq_rel gl gc kinmem = Some (Some pdata) →
  is_Some (vtemp3 pdata) ∧
  live ((KBBDAlloc_mem al N mu_ ml_ dq_rel gl gc kinmem).1 ++ KBBDFree pdata)
  = [blk_vtemp3].
Proof.
  intros Halloc.
  destruct (KBBDAlloc_Some _ _ _ _ _ _ _ _ _ Halloc) as (km & _ & _ & _ & Hv).
  split; [done|]. revert Halloc. clear Hv.
  unfold KBBDAlloc, KBBDAlloc_mem, KBBDFree.
  destruct kinmem as [kin_mem|]; [|done].
  destruct (_ || _); [done|]. destruct (negb _); [done|].
  destruct (BandAllocMat al N mu_ ml_ (mu_ + ml_)); simpl; [|done].
  destruct (N_VNew al N (kin_machenv kin_mem)); simpl; [|done].
  intros _. by destruct (BandAllocPiv al N).
Qed.

End ResourceFacts.

(** * The Fortran interface to the matrix constructors *)

Section FortranMatrixFacts.

Context {SUNMatrix : Type}.
Implicit Types (g : F2C_matrices (SUNMatrix := SUNMatrix)) (ids : fcmix_ids).

Ltac by_code ids code :=
  destruct (decide (code = FCMIX_CVODE ids));
    [|destruct (decide (code = FCMIX_IDA ids));
      [|destruct (decide (code = FCMIX_KINSOL ids));
        [|destruct (decide (code = FCMIX_ARKODE ids))]]].

Lemma F2C_matrix_of_is_Some ids g code :
  is_Some (F2C_matrix_of ids g code) ↔
  code ∈ [FCMIX_CVODE ids; FCMIX_IDA ids; FCMIX_KINSOL ids; FCMIX_ARKODE ids].
Proof.
  unfold F2C_matrix_of. rewrite !elem_of_cons, elem_of_nil.
  by_code ids code; split; try (by eexists); try tauto.
  by intros [? ?].
Qed.

(** One call with a constructor result m: what it leaves in ier and in the
    global variables. *)
Lemma FSUNMATRIX_INITS_facts ids new g code M N NNZ sparsetype :
  let r := FSUNMATRIX_INITS ids new g code M N NNZ sparsetype in
  let m := new M N NNZ sparsetype in
  let valid :=
    code ∈ [FCMIX_CVODE ids; FCMIX_IDA ids; FCMIX_KINSOL ids; FCMIX_ARKODE ids] in
  (r.2 = 0 ∨ r.2 = -1) ∧
  (r.2 = 0 ↔ valid ∧ is_Some m) ∧
  (valid → F2C_matrix_of ids r.1 code = Some m) ∧
  (∀ c, c ≠ code → F2C_matrix_of ids r.1 c = F2C_matrix_of ids g c) ∧
  (¬ valid → r.1 = g).
Proof.
  intros r m valid. unfold valid. rewrite <- (F2C_matrix_of_is_Some ids g).
  unfold r, FSUNMATRIX_INITS, F2C_matrix_of. fold m.
  split; [|split; [|split; [|split]]].
  - by_code ids code; simpl; try destruct m; simpl; tauto.
  - by_code ids code; simpl; try destruct m; simpl;
      (split; [intros ?; try done; by split; eexists|]);
      try done; try (by intros [_ [? ?]]); by intros [[? ?] _].
  - by_code ids code; simpl; try (by intros [? ?]); intros _; subst code;
      by rewrite ?decide_True, ?decide_False by done.
  - intros c Hc. by_code ids code; simpl; try done;
      subst code; by_code ids c; done.
  - by_code ids code; simpl; try done; intros []; by eexists.
Qed.

(** X10: FSUNMATRIX_INITS leaves 0 or -1 in ier, and 0 exactly when the code is
    one of the four solver identifiers and SUNMatrixNew_Sparse returned a
    matrix.  For such a code the global variable of that solver holds what
    SUNMatrixNew_Sparse returned (NULL included) and the three others are
    as before; for any other code no global variable is written. *)
Theorem FSUNMATRIX_INITS_ier_and_globals ids new g code M N NNZ sparsetype :
  let r := FSUNMATRIX_INITS ids new g code M N NNZ sparsetype in
  let m := new M N NNZ sparsetype in
  let valid :=
    code ∈ [FCMIX_CVODE ids; FCMIX_IDA ids; FCMIX_KINSOL ids; FCMIX_ARKODE ids] in
  (r.2 = 0 ∨ r.2 = -1) ∧
  (r.2 = 0 ↔ valid ∧ is_Some m) ∧
  (valid → F2C_matrix_of ids r.1 code = Some m) ∧
  (∀ c, c ≠ code → F2C_matrix_of ids r.1 c = F2C_matrix_of ids g c) ∧
  (¬ valid → r.1 = g).
Proof. apply FSUNMATRIX_INITS_facts. Qed.

(** X11: FSUNMATRIX_INITD does the same with SUNMatrixNew_Dense: ier is 0 or -1,
    and 0 exactly for a solver identifier and a matrix returned; the global
    variable of the solver holds the result of the constructor, the others
    are as before, and another code writes no global variable. *)
Theorem FSUNMATRIX_INITD_ier_and_globals ids new g code M N :
  let r := FSUNMATRIX_INITD ids new g code M N in
  let m := new M N in
  let valid :=
    code ∈ [FCMIX_CVODE ids; FCMIX_IDA ids; FCMIX_KINSOL ids; FCMIX_ARKODE ids] in
  (r.2 = 0 ∨ r.2 = -1) ∧
  (r.2 = 0 ↔ valid ∧ is_Some m) ∧
  (valid → F2C_matrix_of ids r.1 code = Some m) ∧
  (∀ c, c ≠ code → F2C_matrix_of ids r.1 c = F2C_matrix_of ids g c) ∧
  (¬ valid → r.1 = g).
Proof.
  apply (FSUNMATRIX_INITS_facts ids (λ _ _ _ _, new M N) g code 0 0 0 0).
Qed.

(** X12: a call does not look at what the global variable held: after a first
    call for the same code, a second call leaves what it would have left
    without the first.  The matrix of the first call is referred to by no
    global variable any more, unless the constructor returned it again. *)
Theorem FSUNMATRIX_INITS_second_call_replaces ids new1 new2 g code
    M1 N1 NNZ1 st1 M2 N2 NNZ2 st2 :
  FSUNMATRIX_INITS ids new2
    (FSUNMATRIX_INITS ids new1 g code M1 N1 NNZ1 st1).1 code M2 N2 NNZ2 st2
  = FSUNMATRIX_INITS ids new2 g code M2 N2 NNZ2 st2.
Proof.
  unfold FSUNMATRIX_INITS. by_code ids code; simpl; try done.
  all: subst code; by rewrite ?decide_True, ?decide_False by done.
Qed.

(** X13: calls for two different codes do not interfere: whatever the
    constructor returns to each, the global variables are the same in
    either order, and each call leaves the same ier as when it is made
    first. *)
Theorem FSUNMATRIX_INITS_calls_commute ids new1 new2 g code1 code2
    M1 N1 NNZ1 st1 M2 N2 NNZ2 st2 :
  code1 ≠ code2 →
  let first1 := FSUNMATRIX_INITS ids new1 g code1 M1 N1 NNZ1 st1 in
  let first2 := FSUNMATRIX_INITS ids new2 g code2 M2 N2 NNZ2 st2 in
  let then2 := FSUNMATRIX_INITS ids new2 first1.1 code2 M2 N2 NNZ2 st2 in
  let then1 := FSUNMATRIX_INITS ids new1 first2.1 code1 M1 N1 NNZ1 st1 in
  then2.1 = then1.1 ∧ then2.2 = first2.2 ∧ then1.2 = first1.2.
Proof.
  intros Hne. unfold FSUNMATRIX_INITS.
  by_code ids code1; by_code ids code2; simpl; try done; congruence.
Qed.

End FortranMatrixFacts.

(** * The quotients of an affine local function *)

Section AffineFacts.

Context {R : Type} {RA : RealArith R} {fdata : Type}.
Implicit Types (pdata : @KBBDDataRec R fdata) (m : @dq_mem R fdata).

Lemma rsum_ext (f g : Z → R) (l : list Z) :
  (∀ j, j ∈ l → f j = g j) → rsum f l = rsum g l.
Proof.
  induction l as [|j l IH]; intros Hfg; simpl; [done|].
  rewrite Hfg by left. f_equal. apply IH. intros j' Hj'. apply Hfg. by right.
Qed.

Lemma rd_affine_gloc (A : Z → Z → R) (b : Z → R) Nlocal u (ud : fdata) i :
  0 ≤ i < Nlocal →
  rd ZERO (affine_gloc A b Nlocal u ud).1 i
  = radd (rsum (λ j, rmul (A i j) (rd ZERO u j)) (seqZ 0 Nlocal)) (b i).
Proof.
  intros Hi. unfold affine_gloc; simpl. apply rd_lookup; [lia|].
  change (map ?f ?l) with (f <$> l). rewrite list_lookup_fmap.
  rewrite (lookup_seqZ_lt 0 Nlocal (Z.to_nat i)) by lia. simpl.
  by rewrite Z2Nat.id by lia.
Qed.

End AffineFacts.

Section ExactJacobian.

#[local] Existing Instance Qc_arith.

Context {fdata : Type}.
Implicit Types (pdata : @KBBDDataRec Qc fdata).

Lemma Qc_rsum_zero (f : Z → Qc) (l : list Z) :
  (∀ j, j ∈ l → f j = 0%Qc) → rsum f l = 0%Qc.
Proof.
  induction l as [|j l IH]; intros Hf; simpl; [done|].
  rewrite Hf by left. rewrite IH by (intros; apply Hf; by right).
  apply Qcplus_0_l.
Qed.

Lemma Qc_rsum_single (f : Z → Qc) (l : list Z) (j : Z) :
  NoDup l → j ∈ l → (∀ j', j' ∈ l → j' ≠ j → f j' = 0%Qc) →
  rsum f l = f j.
Proof.
  induction l as [|a l IH]; intros Hnd Hin Hf; [by apply elem_of_nil in Hin|].
  apply NoDup_cons in Hnd as [Ha Hnd]. simpl.
  apply elem_of_cons in Hin as [->|Hin].
  - rewrite Qc_rsum_zero; [apply Qcplus_0_r|].
    intros j' Hj'. apply Hf; [by right|]. by intros ->.
  - rewrite IH; [|done|done|intros; apply Hf; [by right|done]].
    rewrite (Hf a); [apply Qcplus_0_l | by left | by intros ->].
Qed.

Lemma Qc_rsum_sub (f g : Z → Qc) (l : list Z) :
  (rsum f l - rsum g l)%Qc = rsum (λ j, (f j - g j)%Qc) l.
Proof.
  induction l as [|a l IH]; simpl; [ring|]. rewrite <- IH. ring.
Qed.

(** X4: in exact arithmetic, for a local function g(u) = A u + b whose matrix A
    has no entry outside the band of half-bandwidths mu and ml, a positive
    rel_uu and positive scale components, KBBDDQJac stores A itself: every
    element (i,j) of the band is A(i,j), whatever uu, b and the increments
    are.  Columns of one group do not disturb each other. *)
Theorem KBBDDQJac_exact_for_affine (A : Z → Z → Qc) (b : Z → Qc)
    Nlocal J pdata uu uscale gu gtemp utemp (ud : fdata) :
  0 ≤ mu pdata → 0 ≤ ml pdata →
  length uu = Z.to_nat Nlocal →
  band_shape Nlocal (mu pdata) (ml pdata) (mu pdata + ml pdata) J →
  gloc pdata = affine_gloc A b →
  (0 < rel_uu pdata)%Qc →
  (∀ j, 0 ≤ j < Nlocal → (0 < rd 0%Qc uscale j)%Qc) →
  (∀ i j, 0 ≤ i < Nlocal → 0 ≤ j < Nlocal →
     i < j - mu pdata ∨ j + ml pdata < i → A i j = 0%Qc) →
  ∀ j i, 0 ≤ j < Nlocal →
    Z.max 0 (j - mu pdata) ≤ i ≤ Z.min (j + ml pdata) (Nlocal - 1) →
    BAND_COL_ELEM
      (dq_J (KBBDDQJac Nlocal J pdata uu uscale gu gtemp utemp ud)) i j
    = A i j.
Proof.
  intros Hmu Hml Huu Hshape Hgloc Hrel Hscale Hband j i Hj Hi.
  set (width := ml pdata + mu pdata + 1).
  assert (Hw : 1 ≤ width) by (unfold width; lia).
  assert (Hcolumns : length (data J) = Z.to_nat Nlocal) by apply Hshape.
  pose proof (KBBDDQJac_inv pdata Nlocal J uu uscale Hw Huu gu gtemp utemp ud)
    as Hinv.
  pose proof (KBBDDQJac_J_inv pdata Nlocal J uu uscale Hw Huu Hcolumns
                (λ j i, band_shape_height _ _ _ J j i Hmu Hml Hshape)
                gu gtemp utemp ud) as HJ.
  pose proof (KBBDDQJac_calls_sound Nlocal J pdata uu uscale gu gtemp utemp ud)
    as Hsound.
  set (m := KBBDDQJac Nlocal J pdata uu uscale gu gtemp utemp ud) in *.
  fold width in Hinv, HJ. destruct Hinv, HJ.
  pose proof (Z.mod_pos_bound j width ltac:(lia)) as Hmod.
  pose proof (Z.mod_le j width ltac:(lia) ltac:(lia)) as Hmod'.
  assert (Hg : j mod width < Z.of_nat (Z.to_nat (Z.min width Nlocal))) by lia.
  destruct (inv_call_group0 (Z.to_nat (j mod width)) ltac:(lia))
    as (u & gout & Hcall & _ & Hu).
  destruct (Hsound _ _ _ Hcall) as [ud' ->].
  rewrite (inv_J_new0 j i) by done. fold width.
  unfold nth_call. rewrite Hcall. simpl gloc_output.
  unfold G_base. rewrite Hgloc.
  rewrite !rd_affine_gloc by lia.
  set (inc := dq_inc (rel_uu pdata) uu uscale j).
  assert (Hinc : (0 < inc)%Qc).
  { unfold inc, dq_inc.
    pose proof (Qc_MAX_positive (ABS (rd ZERO uu j)) _
                  (Qc_reciprocal_positive _ (Hscale j Hj))) as Hmax.
    pose proof (Qcmult_lt_compat_r 0 (rel_uu pdata) _ Hmax Hrel) as Hmul.
    by rewrite Qcmult_0_l in Hmul. }
  assert (Hne : inc ≠ 0%Qc).
  { intros Heq. rewrite Heq in Hinc. by apply (Qclt_not_eq _ _ Hinc). }
  set (S1 := rsum _ _). set (S0 := rsum _ _).
  assert (Hdiff : (S1 - S0)%Qc = (A i j * inc)%Qc).
  { unfold S1, S0. rewrite Qc_rsum_sub.
    rewrite (Qc_rsum_single _ _ j); [| apply NoDup_seqZ | apply elem_of_seqZ; lia |].
    - rewrite (Hu j Hj). unfold group_input. fold width.
      rewrite Z2Nat.id by lia.
      rewrite decide_True by lia. fold inc. simpl. ring.
    - intros j' Hj' Hne'. apply elem_of_seqZ in Hj'.
      rewrite (Hu j' ltac:(lia)). unfold group_input. fold width.
      rewrite Z2Nat.id by lia.
      replace (j mod width + 1 - 1) with (j mod width) by lia.
      destruct (decide (j' mod width = j mod width)) as [Hsame|Hother].
      + rewrite (Hband i j'); [simpl; ring | lia | lia |].
        destruct (same_residue_far width j' j Hw Hsame Hne'); unfold width in *; lia.
      + case_decide; simpl; ring. }
  simpl.
  replace (S1 + b i - (S0 + b i))%Qc with (S1 - S0)%Qc by ring.
  rewrite Hdiff. field. done.
Qed.

End ExactJacobian.

(** * The further properties on the examples *)

Section FurtherWitnesses.

#[local] Existing Instance float_arith.
#[local] Existing Instance Qc_arith.

(** X3: columns 0 and 3 of group 1 for mu = ml = 1 and N = 7: row 1 is in the
    range of column 0 and not in that of column 3. *)
Lemma group_row_ranges_disjoint_witness :
  0 ∈ group_cols 1 3 7 ∧ 3 ∈ group_cols 1 3 7 ∧
  ¬ (Z.max 0 (3 - 1) ≤ 1 ≤ Z.min (3 + 1) (7 - 1)).
Proof.
  assert (H0 : 0 ∈ group_cols 1 (1 + 1 + 1) 7) by (vm_compute; constructor).
  assert (H3 : 3 ∈ group_cols 1 (1 + 1 + 1) 7)
    by (vm_compute; constructor; constructor).
  split; [exact H0|]. split; [exact H3|].
  apply (group_row_ranges_disjoint 1 1 7 1 0 3 1); [lia | exact H0 | exact H3 | lia | lia].
Defined.


(** X2: the matrix factored for the problem in doubles is zero at (3,1) and at
    (0,2), outside the band. *)
Lemma KBBDPrecon_factors_banded_matrix_witness :
  ∃ J out,
    KBBDPrecon (BS := band_c) DoubleEx.uu DoubleEx.uscale [] []
      DoubleEx.pdata 0%float = Some out ∧
    PP (po_pdata out) = Some (BandFactor (BandSolver := band_c) J [99; 99; 99; 99]).1.1 ∧
    BAND_COL_ELEM J 3 1 = 0%float ∧ BAND_COL_ELEM J 0 2 = 0%float.
Proof.
  destruct (KBBDPrecon_factors_banded_matrix (RA := float_arith) (BS := band_c)
              DoubleEx.pdata DoubleEx.uu DoubleEx.uscale [] [] 0%float
              (mkBandMat 4 1 1 2 (replicate 4 (replicate 4 7%float)))
              [99; 99; 99; 99] (replicate 4 7%float))
    as (J & out & H1 & H2 & _ & _ & H3);
    [by vm_compute | by vm_compute | reflexivity
    | apply (alloc_ok_band_shape 7%float 99); reflexivity
    | reflexivity | reflexivity | reflexivity |].
  exists J, out. split; [exact H1|]. split; [exact H2|].
  split; apply H3; simpl; lia.
Defined.

(** X5: the exact problem, and the same problem with a zero matrix, other work
    vectors and a counter that has run: the two rebuilds give the same
    factors. *)
Lemma KBBDPrecon_ignores_old_contents_witness :
  let pdata2 : @KBBDDataRec Qc Qc :=
    mkKBBDData 1 1 tri_gloc tri_gcomm (Some (BandZero ExactEx.J0))
      (Some [99; 99; 99; 99]) (Some []) (Q2Qc (1 # 2)) 4 16 4 5 in
  ∃ out1 out2,
    KBBDPrecon (BS := band_c) ExactEx.uu ExactEx.uscale [] []
      ExactEx.pdata (ExactEx.q 0) = Some out1 ∧
    KBBDPrecon (BS := band_c) ExactEx.uu ExactEx.uscale
      ExactEx.uu [ExactEx.q 3] pdata2 (ExactEx.q 0) = Some out2 ∧
    PP (po_pdata out1) = PP (po_pdata out2) ∧
    po_ret out1 = po_ret out2.
Proof.
  intros pdata2.
  destruct (KBBDPrecon_ignores_old_contents (RA := Qc_arith) (BS := band_c)
              ExactEx.pdata pdata2 ExactEx.uu ExactEx.uscale
              [] [] ExactEx.uu [ExactEx.q 3] (ExactEx.q 0)
              ExactEx.J0 (BandZero ExactEx.J0) [99; 99; 99; 99]
              (replicate 4 (ExactEx.q 7)) [])
    as (out1 & out2 & H1 & H2 & H3 & _ & _ & H4 & _); try reflexivity.
  exists out1, out2. split; [exact H1|]. split; [exact H2|].
  split; [exact H3 | exact H4].
Defined.

(** X6: two rebuilds of the problem in doubles: the pointers stay set and nge
    is 8. *)
Lemma precon_seq_keeps_data_witness :
  ∃ pdata' ud',
    precon_seq (BS := band_c)
      [(DoubleEx.uu, DoubleEx.uscale, [], []);
       (DoubleEx.uscale, DoubleEx.uscale, [], [])] DoubleEx.pdata 0%float
    = Some (pdata', ud') ∧
    is_Some (PP pdata') ∧ nge pdata' = 8.
Proof.
  destruct (precon_seq_keeps_data (RA := float_arith) (BS := band_c)
              [(DoubleEx.uu, DoubleEx.uscale, [], []);
               (DoubleEx.uscale, DoubleEx.uscale, [], [])]
              DoubleEx.pdata 0%float)
    as (pdata' & ud' & H1 & H2 & _ & _ & _ & _ & _ & _ & _ & _ & _ & _ & H3);
    [by eexists | by eexists | by eexists |].
  exists pdata', ud'. split; [exact H1|]. split; [exact H2 | exact H3].
Defined.

(** X7: the data KBBDAlloc returns for the problem in doubles can be used, and
    those it returns when BandAllocPiv fails cannot. *)
Lemma KBBDAlloc_data_usable_witness :
  is_Some (KBBDPSol (BS := band_c) [1; 0; 0; 1]%float DoubleEx.pdata) ∧
  ∃ pdata,
    KBBDAlloc (alloc_no_pivots 7%float) 4 1 1 0%float tri_gloc tri_gcomm
      DoubleEx.kinmem = Some (Some pdata) ∧
    ¬ is_Some (KBBDPrecon (BS := band_c) DoubleEx.uu DoubleEx.uscale [] []
                 pdata 0%float).
Proof.
  split.
  - destruct (KBBDAlloc_data_usable (RA := float_arith) (BS := band_c)
                DoubleEx.alloc 4 1 1 0%float tri_gloc tri_gcomm DoubleEx.kinmem
                DoubleEx.pdata eq_refl) as [_ H].
    apply H. by eexists.
  - eexists. split; [reflexivity|].
    destruct (KBBDAlloc_data_usable (RA := float_arith) (BS := band_c)
                (alloc_no_pivots 7%float) 4 1 1 0%float tri_gloc tri_gcomm
                DoubleEx.kinmem _ eq_refl) as [H _].
    intros Hsome. apply H in Hsome. destruct Hsome as [? Hsome]. discriminate Hsome.
Defined.

(** X8: N_VNew fails after the matrix and the pivot array were obtained:
    KBBDAlloc returns NULL and both are still held. *)
Lemma KBBDAlloc_NULL_return_memory_witness :
  let al := mkAlloc true (BandAllocMat DoubleEx.alloc)
              (BandAllocPiv DoubleEx.alloc) (λ _ _, None) in
  KBBDAlloc al 4 1 1 0%float tri_gloc tri_gcomm DoubleEx.kinmem = Some None ∧
  live (KBBDAlloc_mem al 4 1 1 0%float tri_gloc tri_gcomm DoubleEx.kinmem).1
  = [blk_PP; blk_pivots].
Proof.
  intros al. split; [reflexivity|].
  destruct (KBBDAlloc_NULL_return_memory (RA := float_arith) (fdata := float)
              al 4 1 1 0%float tri_gloc tri_gcomm DoubleEx.kinmem eq_refl)
    as (_ & H1 & H2).
  apply H2. split; [|by eexists]. apply H1.
  exists (mkKINMem ex_machenv 0x1p-52%float).
  repeat split; try reflexivity. by eexists.
Defined.

(** X9: KBBDAlloc, then KBBDFree, for the problem in doubles: vtemp3 is still
    held. *)
Lemma KBBDFree_keeps_vtemp3_witness :
  live ((KBBDAlloc_mem DoubleEx.alloc 4 1 1 0%float tri_gloc tri_gcomm
           DoubleEx.kinmem).1 ++ KBBDFree DoubleEx.pdata)
  = [blk_vtemp3].
Proof.
  apply (KBBDFree_keeps_vtemp3 (RA := float_arith) (fdata := float)
           DoubleEx.alloc 4 1 1 0%float tri_gloc tri_gcomm DoubleEx.kinmem
           DoubleEx.pdata eq_refl).
Defined.

(** X13: with matrices named by integers, a call for KINSOL and a call
    for CVODE, in both orders. *)
Lemma FSUNMATRIX_INITS_calls_commute_witness :
  let g0 := mkF2C (SUNMatrix := Z) None None None None in
  let new1 := λ M N NNZ st : Z, Some (M + N) in
  let new2 := λ M N NNZ st : Z, if decide (0 < NNZ) then Some NNZ else None in
  (FSUNMATRIX_INITS fcmix_std new2
     (FSUNMATRIX_INITS fcmix_std new1 g0 3 5 5 9 0).1 1 4 4 0 1).1
  = (FSUNMATRIX_INITS fcmix_std new1
       (FSUNMATRIX_INITS fcmix_std new2 g0 1 4 4 0 1).1 3 5 5 9 0).1.
Proof.
  intros g0 new1 new2.
  apply (FSUNMATRIX_INITS_calls_commute fcmix_std new1 new2 g0 3 1
           5 5 9 0 4 4 0 1).
  discriminate.
Defined.

(** X4: the band matrix of the affine example is recovered exactly: element
    (2,1) is -1. *)
Lemma KBBDDQJac_exact_for_affine_witness :
  BAND_COL_ELEM
    (dq_J (KBBDDQJac 4 ExactEx.J0 AffineEx.pdata ExactEx.uu ExactEx.uscale
             [] [] [] (ExactEx.q 0))) 2 1
  = ExactEx.q (-1).
Proof.
  apply (KBBDDQJac_exact_for_affine (fdata := Qc) AffineEx.A AffineEx.b
           4 ExactEx.J0 AffineEx.pdata ExactEx.uu ExactEx.uscale [] [] []
           (ExactEx.q 0)).
  - by vm_compute.
  - by vm_compute.
  - reflexivity.
  - unfold band_shape. simpl. repeat split; try reflexivity.
    repeat constructor.
  - reflexivity.
  - reflexivity.
  - intros j Hj.
    assert (Hc : j = 0 ∨ j = 1 ∨ j = 2 ∨ j = 3) by lia.
    destruct Hc as [-> | [-> | [-> | ->]]]; reflexivity.
  - intros i j Hi Hj Hfar. unfold AffineEx.A. simpl in Hfar.
    rewrite !decide_False by lia. reflexivity.
  - lia.
  - simpl. lia.
Defined.

End FurtherWitnesses.
